(** * Word-embedding similarity search of the NLP notebook (03A_NLP)

    A shallow embedding of the embedding store, the similarity score, the
    nearest-neighbour ranking [closest_to_vector] and the analogy solver of
    the notebook, together with the properties the specification states
    about them.

    The notebook is written against numpy and is generic in the element
    type of its arrays.  The embedding follows it: every numeric function is
    written once over an interface [Numeric] of array elements, and is used
    at two instances, IEEE binary32 (the [float32] the notebook computes in)
    and the real numbers (exact arithmetic). *)

From Stdlib Require Import ZArith Reals Lra.
From Stdlib Require Import Floats.SpecFloat.
From stdpp Require Import gmap strings list sorting.
From Stdlib Require Import Strings.Ascii.

Local Open Scope Z_scope.
Local Open Scope nat_scope.

(** ** Python exceptions and fallible computations *)

Inductive exn : Set :=
  | KeyError        (* dict lookup of an absent key *)
  | IndexError      (* sequence index out of range *)
  | StopIteration   (* [next] on an exhausted iterator *)
  | ValueError.     (* numpy shape mismatch *)

Inductive result (T : Type) : Type :=
  | Ok (x : T)
  | Raise (e : exn).
Arguments Ok {T} x.
Arguments Raise {T} e.

#[global] Instance result_ret : MRet result := λ T x, Ok x.
#[global] Instance result_bind : MBind result := λ T U k r,
  match r with
  | Ok x => k x
  | Raise e => Raise e
  end.

Definition returns {T} (r : result T) : Prop := ∃ x, r = Ok x.

(** ** Array elements *)

(** The operations numpy applies to array elements in the notebook.
    [num_less] is the comparison that [np.argsort] sorts by. *)
Class Numeric (A : Type) : Type := {
  num_zero : A;
  num_add : A → A → A;
  num_sub : A → A → A;
  num_mul : A → A → A;
  num_div : A → A → A;
  num_sqrt : A → A;
  num_less : A → A → bool;
}.

(** *** IEEE binary32, numpy's [float32] *)
Module F32.

Definition prec : Z := 24.
Definition emax : Z := 128.

Definition t : Type := spec_float.

Definition is_nan (x : t) : bool :=
  match x with
  | S754_nan => true
  | _ => false
  end.

(** numpy's sorting order on floats, [a < b || (b != b && a == a)]: the
    IEEE order with every NaN after every number. *)
Definition less (a b : t) : bool :=
  SFltb a b || (is_nan b && negb (is_nan a)).

Definition of_Z (z : Z) : t := binary_normalize prec emax z 0 false.

(** [pow2 e] is the binary32 value of [2^e], rounded when out of range. *)
Definition pow2 (e : Z) : t := binary_normalize prec emax 1 e false.

Definition zero : t := S754_zero false.
Definition nan : t := S754_nan.

Definition is_zero (x : t) : bool :=
  match x with
  | S754_zero _ => true
  | _ => false
  end.

(** A number: neither NaN nor an infinity. *)
Definition is_finite (x : t) : bool :=
  match x with
  | S754_zero _ | S754_finite _ _ _ => true
  | _ => false
  end.

(** The place of a float in the sorting order: its class first, then
    exponent and mantissa, both negated below zero. *)
Definition key (x : t) : Z * Z * Z :=
  match x with
  | S754_infinity true => (0, 0, 0)
  | S754_finite true m e => (1, - e, - Z.pos m)
  | S754_zero _ => (2, 0, 0)
  | S754_finite false m e => (3, e, Z.pos m)
  | S754_infinity false => (4, 0, 0)
  | S754_nan => (5, 0, 0)
  end%Z.

Definition key_lt (k1 k2 : Z * Z * Z) : Prop :=
  (k1.1.1 < k2.1.1 ∨
   (k1.1.1 = k2.1.1 ∧
    (k1.1.2 < k2.1.2 ∨ (k1.1.2 = k2.1.2 ∧ k1.2 < k2.2))))%Z.

End F32.

#[global] Instance float32 : Numeric F32.t := {|
  num_zero := F32.zero;
  num_add := SFadd F32.prec F32.emax;
  num_sub := SFsub F32.prec F32.emax;
  num_mul := SFmul F32.prec F32.emax;
  num_div := SFdiv F32.prec F32.emax;
  num_sqrt := SFsqrt F32.prec F32.emax;
  num_less := F32.less;
|}.

(** *** Exact arithmetic *)
Definition Rless (a b : R) : bool := if Rlt_dec a b then true else false.

#[global] Instance exact : Numeric R := {|
  num_zero := 0%R;
  num_add := Rplus;
  num_sub := Rminus;
  num_mul := Rmult;
  num_div := Rdiv;
  num_sqrt := sqrt;
  num_less := Rless;
|}.

(** ** numpy on lists

    A one-dimensional array is a list of elements, a two-dimensional array
    is the list of its rows.  The casts [astype('float32')] of the notebook
    are the identity on the element type. *)
Section Numpy.
Context {A : Type} `{Numeric A}.

(** Sum of the pointwise products, accumulated from the left. *)
Definition dot (u v : list A) : A :=
  fold_left num_add (zip_with num_mul u v) num_zero.

(** [np.dot(u, v)] on two vectors: the shapes must agree. *)
Definition np_dot_vec (u v : list A) : result A :=
  if decide (length u = length v) then Ok (dot u v) else Raise ValueError.

(** [np.dot(M, v)] on a matrix with [D] columns and a vector. *)
Definition np_dot_mat (D : nat) (M : list (list A)) (v : list A)
  : result (list A) :=
  if decide (length v = D) then Ok ((λ row, dot row v) <$> M)
  else Raise ValueError.

(** [np.linalg.norm(E, axis=1)]: the Euclidean norm of every row. *)
Definition norm (row : list A) : A := num_sqrt (dot row row).
Definition np_linalg_norm (E : list (list A)) : list A := norm <$> E.

(** [E / norms.reshape([-1, 1])]: every row is divided, element by
    element, by the norm in its line. *)
Definition divide_rows (E : list (list A)) (norms : list A) : list (list A) :=
  zip_with (λ row nrm, (λ x, num_div x nrm) <$> row) E norms.

(** Elementwise [u - v], [u + v] and [s * v] on vectors of one shape. *)
Definition vsub (u v : list A) : list A := zip_with num_sub u v.
Definition vadd (u v : list A) : list A := zip_with num_add u v.
Definition vscale (s : A) (v : list A) : list A := num_mul s <$> v.

(** [xs[i]], for a position [i] of [xs]. *)
Definition elem (xs : list A) (i : nat) : A := default num_zero (xs !! i).

(** What [np.argsort] promises of its result [p] on the array [xs]: the
    positions of [xs], each once, in an order in which the elements
    ascend (no element is less than one before it).  The order of equal
    elements is left open, as it is by the default sorting kind. *)
Definition ascending (xs : list A) (p : list nat) : Prop :=
  StronglySorted (λ a b, num_less (elem xs b) (elem xs a) = false) p.

Definition argsort_spec (xs : list A) (p : list nat) : Prop :=
  p ≡ₚ seq 0 (length xs) ∧ ascending xs p.

(** A stable order: of two positions whose elements are equal in the
    order, the smaller comes first. *)
Definition stable (xs : list A) (p : list nat) : Prop :=
  StronglySorted
    (λ a b, num_less (elem xs a) (elem xs b) = false → a < b) p.

(** An argsort decides by comparisons only: two arrays whose elements
    compare alike are sorted by the same permutation. *)
Definition same_order (xs ys : list A) : Prop :=
  length xs = length ys ∧
  ∀ a b, a < length xs → b < length xs →
    num_less (elem xs a) (elem xs b) = num_less (elem ys a) (elem ys b).

Definition comparison_sort (argsort : list A → list nat) : Prop :=
  ∀ xs ys, same_order xs ys → argsort xs = argsort ys.

(** The order of the elements is a strict weak order. *)
Definition strict_weak_order : Prop :=
  (∀ x y : A, num_less x y = true → num_less y x = false) ∧
  (∀ x y z : A,
     num_less x y = false → num_less y z = false → num_less x z = false).

(** One argsort that keeps the promise: an insertion sort.  [tosort] is
    kept reversed, its head is the position sorted last; the position [vi]
    moves left past every position whose element is greater than its own.
    It leaves equal elements in the order of their positions, which
    [np.argsort] does not promise: the examples that run it show one of the
    results the promise allows. *)
Fixpoint insert_pos (xs : list A) (vi : nat) (tosort : list nat) : list nat :=
  match tosort with
  | [] => [vi]
  | vk :: rest =>
      if num_less (elem xs vi) (elem xs vk)
      then vk :: insert_pos xs vi rest
      else vi :: vk :: rest
  end.

Definition insertion_desc (xs : list A) : list nat :=
  fold_left (λ tosort vi, insert_pos xs vi tosort) (seq 0 (length xs)) [].

Definition insertion_argsort (xs : list A) : list nat :=
  reverse (insertion_desc xs).

(** Positions [ps] ranked by [scores]: no position has a lower score than
    a later one, ... *)
Definition non_increasing (scores : list A) (ps : list nat) : Prop :=
  StronglySorted
    (λ a b, num_less (elem scores a) (elem scores b) = false) ps.

(** ... and no position left out has a higher score than one in [ps]. *)
Definition highest (scores : list A) (ps : list nat) : Prop :=
  ∀ a b, a ∈ ps → b < length scores → b ∉ ps →
    num_less (elem scores a) (elem scores b) = false.

(** Positions with equal scores come in descending order of position. *)
Definition ties_descending (scores : list A) (ps : list nat) : Prop :=
  StronglySorted
    (λ a b, num_less (elem scores b) (elem scores a) = false → b < a) ps.

End Numpy.

(** [a] stands before [b] in the list [l]. *)
Definition precedes (l : list nat) (a b : nat) : Prop :=
  ∃ i j, i < j ∧ l !! i = Some a ∧ l !! j = Some b.

(** ** The notebook *)

Definition list_get {T} (l : list T) (i : nat) : result T :=
  match l !! i with
  | Some x => Ok x
  | None => Raise IndexError
  end.

Definition dict_get (d : gmap string nat) (k : string) : result nat :=
  match d !! k with
  | Some i => Ok i
  | None => Raise KeyError
  end.

(** [enumerate(l)], counting from [i]. *)
Fixpoint enumerate_from {T} (i : nat) (l : list T) : list (nat * T) :=
  match l with
  | [] => []
  | x :: l' => (i, x) :: enumerate_from (S i) l'
  end.
Definition enumerate {T} (l : list T) : list (nat * T) := enumerate_from 0 l.

(** [{word: i for i, word in pairs}], started from the dict [d]: the pairs
    are stored in order, a later one replacing an earlier one of its word. *)
Definition dict_of (pairs : list (nat * string)) (d : gmap string nat)
  : gmap string nat :=
  fold_left (λ d iw, <[iw.2 := iw.1]> d) pairs d.

Section Notebook.
Context {A : Type} `{Numeric A}.

(** [np.argsort], any implementation of it. *)
Variable argsort : list A → list nat.

(** The English vocabulary and its embedding matrix, [V] rows by [D]
    columns ([D] is 300 in the notebook). *)
Variable D : nat.
Variable english_words : list string.
Variable english_embeddings : list (list A).

Definition norms : list A := np_linalg_norm english_embeddings.

Definition normalized_embeddings : list (list A) :=
  divide_rows english_embeddings norms.

Definition index : gmap string nat :=
  dict_of (enumerate english_words) ∅.

(** [normalized_embeddings[index[w], :]] *)
Definition embedding (w : string) : result (list A) :=
  i ← dict_get index w; list_get normalized_embeddings i.

Definition similarity_score (w1 w2 : string) : result A :=
  v1 ← embedding w1;
  v2 ← embedding w2;
  np_dot_vec v1 v2.

(** The iterator [map(lambda i: english_words[i], reversed(order))] is the
    list of the positions it has yet to visit; [next] takes the first and
    looks its word up. *)
Definition next (it : list nat) : result (string * list nat) :=
  match it with
  | [] => Raise StopIteration
  | i :: it' => w ← list_get english_words i; Ok (w, it')
  end.

(** [[next(best_words) for _ in range(k)]] *)
Fixpoint take_next (k : nat) (it : list nat) : result (list string) :=
  match k with
  | O => Ok []
  | S k' =>
      wi ← next it;
      ws ← take_next k' wi.2;
      Ok (wi.1 :: ws)
  end.

(** [np.dot(normalized_embeddings, v)] *)
Definition all_scores (v : list A) : list A :=
  (λ row, dot row v) <$> normalized_embeddings.

Definition closest_to_vector (v : list A) (n : Z) : result (list string) :=
  all_scores ← np_dot_mat D normalized_embeddings v;
  take_next (Z.to_nat n) (reverse (argsort all_scores)).

Definition most_similar (w : string) (n : Z) : result (list string) :=
  v ← embedding w;
  closest_to_vector v n.

Definition solve_analogy (a1 b1 a2 : string) : result (list string) :=
  vb ← embedding b1;
  va ← embedding a1;
  let d := vsub vb va in
  vc ← embedding a2;
  let b2 := vadd d vc in
  closest_to_vector b2 10.

(** The store is well formed: one word for every row, [D] columns in
    every row. *)
Definition well_formed : Prop :=
  length english_words = length english_embeddings ∧
  Forall (λ row, length row = D) english_embeddings.

(** The rows that [closest_to_vector v n] ranks first: the last [n]
    positions of the argsort, the last of them first. *)
Definition best_rows (v : list A) (n : Z) : list nat :=
  take (Z.to_nat n) (reverse (argsort (all_scores v))).

(** [ws] are the words of the rows [ps], one by one. *)
Definition words_of (ps : list nat) (ws : list string) : Prop :=
  Forall2 (λ p w, english_words !! p = Some w) ps ws.

End Notebook.

(** ** A small store

    Three words in two dimensions, the scenario of the specification: after
    normalization "cat" is [1, 0], "dog" is [0.8, 0.6] and "car" is
    [0, 1]. *)
Module Example.

Definition words : list string := ["cat"; "dog"; "car"]%string.

Definition f (z : Z) : F32.t := F32.of_Z z.

Definition embeddings : list (list F32.t) :=
  [[f 1; f 0]; [f 4; f 3]; [f 0; f 1]].

Definition embeddingsR : list (list R) :=
  [[1; 0]; [4; 3]; [0; 1]]%R.

(** A row of zeros. *)
Definition zeros : list (list F32.t) := [[f 0; f 0; f 0]].

(** The query [1, 0] of the scenario, and a query [1, 1] that "cat" and
    "car" score alike on. *)
Definition query : list F32.t := [f 1; f 0].
Definition tied_query : list F32.t := [f 1; f 1].

(** Two words on the two axes and the query [2, 1], which overflows
    when it is scaled by [2^127]. *)
Definition axis_words : list string := ["cat"; "car"]%string.
Definition axis_embeddings : list (list F32.t) := [[f 1; f 0]; [f 0; f 1]].
Definition large_query : list F32.t := [f 2; f 1].

(** Two words of the same norm that score nearly alike on [2, -1]. *)
Definition close_embeddings : list (list F32.t) :=
  [[f 8; f 1]; [f 4; f (-7)]].
Definition close_query : list F32.t := [f 2; f (-1)].

(** Eleven words, enough for the ten that [solve_analogy] asks for. *)
Definition analogy_words : list string :=
  ["man"; "woman"; "king"; "queen"; "boy"; "girl"; "prince"; "princess";
   "uncle"; "aunt"; "duke"]%string.
Definition analogy_embeddings : list (list F32.t) :=
  [[f 1; f 0]; [f 0; f 1]; [f 3; f 1]; [f 1; f 3]; [f 2; f (-1)];
   [f (-1); f 2]; [f 5; f 2]; [f 2; f 5]; [f 4; f (-1)]; [f (-1); f 4];
   [f 1; f 1]].

(** A word whose squared norm overflows, [2^64, 2^64], and a word whose
    squares fall below the normal range, [3 * 2^-75, 2^-75]. *)
Definition extreme_words : list string := ["huge"; "tiny"]%string.
Definition huge_row : list F32.t := [F32.pow2 64; F32.pow2 64].
Definition tiny_row : list F32.t :=
  [num_mul (f 3) (F32.pow2 (-75)); F32.pow2 (-75)].
Definition extreme_embeddings : list (list F32.t) := [huge_row; tiny_row].

End Example.

(** ** Python strings

    A [str] is a Rocq string, read as the list of its characters; a
    character is a code point below 256.  The model covers the strings of
    Latin-1 characters only, and on these its functions are Python's;
    what Python does on other characters ([lower] on a capital whose small
    letter is two code points, [int] on a digit of another script,
    [split] on a wide space) is outside it.  Every statement about lines of
    text below is one about lines of Latin-1 characters. *)
Module Str.

Definition chars (s : string) : list ascii := String.list_ascii_of_string s.
Definition of_chars (l : list ascii) : string := String.string_of_list_ascii l.

Definition code (c : ascii) : N := N_of_ascii c.

Definition between (lo hi n : N) : bool := ((lo <=? n) && (n <=? hi))%N.

(** [c.isspace()] on a character below code point 256: tab to carriage
    return, the four separators, the space, next line and the no-break
    space. *)
Definition is_space (c : ascii) : bool :=
  between 9 13 (code c) || between 28 32 (code c)
  || (code c =? 133)%N || (code c =? 160)%N.

(** [c in string.punctuation]: the 32 punctuation characters of ASCII. *)
Definition is_punct (c : ascii) : bool :=
  between 33 47 (code c) || between 58 64 (code c)
  || between 91 96 (code c) || between 123 126 (code c).

Definition is_digit (c : ascii) : bool := between 48 57 (code c).

(** [c.isupper()] on a character below code point 256: A to Z, and the
    capitals of Latin-1, 192 to 222 without the multiplication sign. *)
Definition is_upper (c : ascii) : bool :=
  between 65 90 (code c)
  || (between 192 222 (code c) && negb (code c =? 215)%N).

Definition lower_char (c : ascii) : ascii :=
  if is_upper c then ascii_of_N (code c + 32) else c.

(** [s.lower()], on characters below code point 256: every capital has
    its small letter 32 places on, and no other character changes. *)
Definition lower (s : string) : string := of_chars (lower_char <$> chars s).

(** [s.translate(remove_punct)], where the table
    [str.maketrans('', '', string.punctuation)] deletes the punctuation. *)
Definition remove_punct (s : string) : string :=
  of_chars (filter (λ c, is_punct c = false) (chars s)).

(** [s[n:]] *)
Definition slice_from (n : nat) (s : string) : string :=
  of_chars (drop n (chars s)).

(** [s.startswith(p)] *)
Definition startswith (p s : string) : bool :=
  bool_decide (take (length (chars p)) (chars s) = chars p).

(** [s[i]] *)
Definition getitem (s : string) (i : nat) : result ascii :=
  match chars s !! i with
  | Some c => Ok c
  | None => Raise IndexError
  end.

(** [int(c)] on a string of the one character [c] below code point 256:
    the decimal digits there are 0 to 9. *)
Definition int (c : ascii) : result Z :=
  if is_digit c then Ok (Z.of_N (code c) - 48)%Z else Raise ValueError.

(** [s.split()]: the maximal runs of characters that are not whitespace.
    [cur] is the run being read, its last character first. *)
Fixpoint split_go (cur : list ascii) (s : list ascii) : list string :=
  match s with
  | [] =>
      match cur with
      | [] => []
      | _ => [of_chars (reverse cur)]
      end
  | c :: s' =>
      if is_space c then
        match cur with
        | [] => split_go [] s'
        | _ => of_chars (reverse cur) :: split_go [] s'
        end
      else split_go (c :: cur) s'
  end.

Definition split (s : string) : list string := split_go [] (chars s).

End Str.

(** ** Restricting the vocabulary to English *)
Module Vocabulary.

Definition en : string := "/c/en/".

(** [[word[6:] for word in all_words if word.startswith('/c/en/')]] *)
Definition english_words (all_words : list string) : list string :=
  Str.slice_from 6 <$> filter (λ word, Str.startswith en word = true) all_words.

(** [[i for i, word in enumerate(all_words)
      if word.startswith('/c/en/')]] *)
Definition english_word_indices (all_words : list string) : list nat :=
  fst <$> filter (λ iw, Str.startswith en iw.2 = true) (enumerate all_words).

(** [all_embeddings[english_word_indices]]: the rows at the indices, or
    [IndexError] when an index has no row. *)
Definition english_embeddings {A : Type} (all_words : list string)
    (all_embeddings : list (list A)) : result (list (list A)) :=
  mapM (list_get all_embeddings) (english_word_indices all_words).

End Vocabulary.

(** ** Reviews as examples *)

(** The conversion of a count to an array element, for [np.mean]. *)
Class Count (A : Type) : Type := num_of_nat : nat → A.

#[global] Instance float32_count : Count F32.t :=
  λ k, F32.of_Z (Z.of_nat k).
#[global] Instance exact_count : Count R := INR.

Module Reviews.
Section Reviews.
Context {A : Type} `{Numeric A} `{Count A}.
Variable english_words : list string.
Variable english_embeddings : list (list A).

(** The dict [{'x': x, 'y': y}]. *)
Record example : Type := { x : list A; y : Z }.

(** [line[2:].translate(remove_punct).lower().split()] *)
Definition line_words (line : string) : list string :=
  Str.split (Str.lower (Str.remove_punct (Str.slice_from 2 line))).

(** [[normalized_embeddings[index[w]] for w in words if w in index]] *)
Fixpoint known_embeddings (words : list string) : result (list (list A)) :=
  match words with
  | [] => Ok []
  | w :: words' =>
      if decide (is_Some (index english_words !! w)) then
        e ← embedding english_words english_embeddings w;
        es ← known_embeddings words';
        Ok (e :: es)
      else known_embeddings words'
  end.

(** [np.vstack(arrays)]: the arrays as the rows of a matrix, which has at
    least one row; [ValueError] without an array or with arrays of
    different lengths.  The matrix is its first row and the others. *)
Definition np_vstack (arrays : list (list A))
  : result (list A * list (list A)) :=
  match arrays with
  | [] => Raise ValueError
  | a :: rest =>
      if decide (Forall (λ b, length b = length a) rest)
      then Ok (a, rest) else Raise ValueError
  end.

(** [np.mean(M, axis=0)]: the rows are added up one after the other,
    starting from the first, and the sum is divided by their number. *)
Definition np_mean_axis0 (M : list A * list (list A)) : list A :=
  (λ s, num_div s (num_of_nat (S (length M.2)))) <$> fold_left vadd M.2 M.1.

Definition convert_line_to_example (line : string) : result example :=
  c ← Str.getitem line 0;
  y ← Str.int c;
  let words := line_words line in
  embeddings ← known_embeddings words;
  stacked ← np_vstack embeddings;
  Ok {| x := np_mean_axis0 stacked; y := y |}.

(** [[convert_line_to_example(l) for l in f.readlines()]] *)
Definition dataset (lines : list string) : result (list example) :=
  mapM convert_line_to_example lines.

End Reviews.
End Reviews.

(** ** Splitting into training and test sets, and batches *)
Module Batches.
Section Batches.
Context {T : Type}.

Definition batch_size : nat := 100.

(** [len(dataset) // batch_size] *)
Definition total_batches (dataset : list T) : nat :=
  length dataset / batch_size.

(** [3*total_batches // 4] *)
Definition train_batches (dataset : list T) : nat :=
  3 * total_batches dataset / 4.

(** [dataset[:train_batches*batch_size]] and
    [dataset[train_batches*batch_size:]] *)
Definition train (dataset : list T) : list T :=
  take (train_batches dataset * batch_size) dataset.
Definition test (dataset : list T) : list T :=
  drop (train_batches dataset * batch_size) dataset.

(** [l[a:b]] for [0 <= a] and [0 <= b]: a slice is cut at the end of the
    list, it never raises. *)
Definition slice (l : list T) (a b : nat) : list T := take (b - a) (drop a l).

(** [train[batch*batch_size:(batch+1)*batch_size]] *)
Definition batch (l : list T) (b : nat) : list T :=
  slice l (b * batch_size) ((b + 1) * batch_size).

(** The batches that [for batch in range(n)] visits, in order. *)
Definition epoch_batches (l : list T) (n : nat) : list (list T) :=
  batch l <$> seq 0 n.

(** In the logistic regression notebook:
    [images[which_batch*100:(which_batch+1)*100]] for
    [which_batch in range(550)]. *)
Definition mnist_batch (l : list T) (which_batch : nat) : list T :=
  slice l (which_batch * 100) ((which_batch + 1) * 100).
Definition mnist_batches (l : list T) : list (list T) :=
  mnist_batch l <$> seq 0 550.

End Batches.
End Batches.

(** ** A sample of reviews *)
Module Sample.

Definition tab : ascii := ascii_of_nat 9.

(** The line "1<tab>A GREAT, great movie!" *)
Definition good_line : string :=
  String "1" (String tab "A GREAT, great movie!").

(** The same review without the word that the vocabulary lacks. *)
Definition plain_line : string := "1 great Great movie".

(** A review none of whose words is in the vocabulary. *)
Definition unknown_line : string := String "0" (String tab "Meh...").

Definition words : list string := ["great"; "movie"; "bad"]%string.
Definition embeddings : list (list F32.t) :=
  [[Example.f 3; Example.f 4]; [Example.f 1; Example.f 0];
   [Example.f (-3); Example.f (-4)]].
Definition embeddingsR : list (list R) :=
  [[3; 4]; [1; 0]; [-3; -4]]%R.

(** Two reviews of the same words in another order. *)
Definition great_movie : string := "1 great movie".
Definition movie_great : string := "1 movie, great!".

Definition all_words : list string :=
  ["/c/de/katze"; "/c/en/cat"; "/c/en/dog"; "/c/fr/chat"; "/c/en/car"]%string.
Definition all_embeddings : list (list F32.t) :=
  [[Example.f 9; Example.f 9]; [Example.f 1; Example.f 0];
   [Example.f 4; Example.f 3]; [Example.f 7; Example.f 7];
   [Example.f 0; Example.f 1]].

End Sample.

(** * Properties *)

(** ** The index *)

Lemma dict_of_cons i w pairs d :
  dict_of ((i, w) :: pairs) d = dict_of pairs (<[w := i]> d).
Proof. reflexivity. Qed.

(** A word that is enumerated is stored at its last position, shifted by
    the start of the count; any other word keeps what the dict had. *)
Lemma dict_of_enumerate_Some (ws : list string) :
  ∀ k d w i,
    dict_of (enumerate_from k ws) d !! w = Some i ↔
    ((∃ j, i = k + j ∧ ws !! j = Some w ∧ ∀ j', ws !! j' = Some w → j' ≤ j)
     ∨ ((w ∉ ws) ∧ d !! w = Some i)).
Proof.
  induction ws as [|x ws IH]; intros k d w i; cbn [enumerate_from].
  - split.
    + intros Hd. right. split; [apply not_elem_of_nil | exact Hd].
    + intros [(j & _ & Hj & _) | [_ Hd]]; [discriminate Hj | exact Hd].
  - rewrite dict_of_cons, IH. split.
    + intros [(j & -> & Hj & Hlast) | [Hnin Hd]].
      * left. exists (S j). split; [lia|]. split; [exact Hj|].
        intros [|j'] Hj'; [lia|]. apply Hlast in Hj'. lia.
      * destruct (decide (x = w)) as [->|Hne].
        -- rewrite lookup_insert_eq in Hd. injection Hd as <-.
           left. exists 0. split; [lia|]. split; [reflexivity|].
           intros [|j'] Hj'; [lia|]. exfalso. apply Hnin.
           eapply list_elem_of_lookup_2. exact Hj'.
        -- rewrite lookup_insert_ne in Hd by exact Hne.
           right. split; [|exact Hd].
           rewrite elem_of_cons. intros [->|Hin]; [congruence | tauto].
    + intros [(j & -> & Hj & Hlast) | [Hnin Hd]].
      * destruct j as [|j].
        -- injection Hj as ->. right. split.
           ++ intros Hin. apply list_elem_of_lookup_1 in Hin as [j' Hj'].
              specialize (Hlast (S j') Hj'). lia.
           ++ rewrite lookup_insert_eq. f_equal. lia.
        -- left. exists j. split; [lia|]. split; [exact Hj|].
           intros j' Hj'. specialize (Hlast (S j') Hj'). lia.
      * rewrite elem_of_cons in Hnin. right. split; [tauto|].
        rewrite lookup_insert_ne; [exact Hd|]. intros ->. tauto.
Qed.

Lemma dict_of_enumerate_None (ws : list string) :
  ∀ k d w,
    dict_of (enumerate_from k ws) d !! w = None ↔ (w ∉ ws) ∧ d !! w = None.
Proof.
  induction ws as [|x ws IH]; intros k d w; cbn [enumerate_from].
  - split; [intros Hd; split; [apply not_elem_of_nil | exact Hd] | tauto].
  - rewrite dict_of_cons, IH, elem_of_cons, lookup_insert_None. split.
    + intros (Hnin & Hd & Hne). split; [|exact Hd].
      intros [->|Hin]; [congruence | tauto].
    + intros (Hnin & Hd). repeat split; [tauto | exact Hd |].
      intros ->. tauto.
Qed.

Lemma index_Some (ws : list string) w i :
  index ws !! w = Some i ↔
  ws !! i = Some w ∧ ∀ j, ws !! j = Some w → j ≤ i.
Proof.
  unfold index, enumerate. rewrite dict_of_enumerate_Some. split.
  - intros [(j & -> & Hj) | [_ Hd]]; [exact Hj|].
    rewrite lookup_empty in Hd. discriminate Hd.
  - intros Hi. left. exists i. split; [reflexivity | exact Hi].
Qed.

Lemma index_None (ws : list string) w : index ws !! w = None ↔ w ∉ ws.
Proof.
  unfold index, enumerate. rewrite dict_of_enumerate_None, lookup_empty.
  tauto.
Qed.

Lemma index_lt (ws : list string) w i :
  index ws !! w = Some i → i < length ws.
Proof.
  intros Hi. apply index_Some in Hi as [Hi _].
  eapply lookup_lt_Some. exact Hi.
Qed.

(** ** Sorted lists of positions *)

Lemma StronglySorted_reverse {T} (R : relation T) (l : list T) :
  StronglySorted R l → StronglySorted (flip R) (reverse l).
Proof.
  induction 1 as [|x l Hl IH Hx].
  - constructor.
  - rewrite reverse_cons. apply StronglySorted_app. repeat split.
    + intros x1 x2 Hx1 Hx2. apply list_elem_of_singleton in Hx2 as ->.
      rewrite elem_of_reverse in Hx1. rewrite Forall_forall in Hx.
      apply Hx. exact Hx1.
    + exact IH.
    + repeat constructor.
Qed.

Lemma StronglySorted_take {T} (R : relation T) (l : list T) n :
  StronglySorted R l → StronglySorted R (take n l).
Proof.
  intros Hl. rewrite <- (take_drop n l) in Hl.
  eapply StronglySorted_app_1_l. exact Hl.
Qed.

(** The last element of an ascending list is one that nothing exceeds. *)
Lemma StronglySorted_last {T} (R : relation T) (l : list T) x y :
  StronglySorted R l → last l = Some y → x ∈ l → x = y ∨ R x y.
Proof.
  intros Hl Hy Hx. apply last_Some in Hy as [l' ->].
  apply elem_of_app in Hx as [Hx|Hx].
  - right. eapply StronglySorted_app_1_elem_of; [exact Hl | exact Hx |].
    apply list_elem_of_singleton. reflexivity.
  - left. apply list_elem_of_singleton in Hx. exact Hx.
Qed.

(** ** The insertion argsort *)
Section InsertionSort.
Context {A : Type} `{Numeric A}.

Lemma insert_pos_Permutation (xs : list A) vi tosort :
  insert_pos xs vi tosort ≡ₚ vi :: tosort.
Proof.
  induction tosort as [|vk rest IH]; simpl; [reflexivity|].
  destruct (num_less _ _); [|reflexivity].
  rewrite IH. apply Permutation_swap.
Qed.

Lemma insertion_fold_Permutation (xs : list A) (l acc : list nat) :
  fold_left (λ tosort vi, insert_pos xs vi tosort) l acc ≡ₚ l ++ acc.
Proof.
  revert acc. induction l as [|vi l IH]; intros acc; simpl; [reflexivity|].
  rewrite IH, insert_pos_Permutation. symmetry. apply Permutation_middle.
Qed.

Lemma insertion_argsort_Permutation (xs : list A) :
  insertion_argsort xs ≡ₚ seq 0 (length xs).
Proof.
  unfold insertion_argsort, insertion_desc.
  rewrite reverse_Permutation, insertion_fold_Permutation, app_nil_r.
  reflexivity.
Qed.

(** Inserting into a descending list leaves it descending. *)
Lemma insert_pos_descending (xs : list A) vi tosort :
  strict_weak_order →
  non_increasing xs tosort → non_increasing xs (insert_pos xs vi tosort).
Proof.
  intros [Hasym Hneg]. unfold non_increasing.
  induction tosort as [|vk rest IH]; intros Hs; simpl.
  - repeat constructor.
  - apply StronglySorted_cons in Hs as [Hvk Hrest].
    destruct (num_less (elem xs vi) (elem xs vk)) eqn:Hlt.
    + apply StronglySorted_cons. split; [|apply IH, Hrest].
      rewrite insert_pos_Permutation. constructor; [|exact Hvk].
      apply Hasym, Hlt.
    + apply StronglySorted_cons. split.
      * constructor; [exact Hlt|].
        eapply Forall_impl; [exact Hvk|]. simpl. intros b Hb.
        eapply Hneg; [exact Hlt | exact Hb].
      * apply StronglySorted_cons. split; [exact Hvk | exact Hrest].
Qed.

Lemma insertion_fold_descending (xs : list A) (l acc : list nat) :
  strict_weak_order →
  non_increasing xs acc →
  non_increasing xs (fold_left (λ tosort vi, insert_pos xs vi tosort) l acc).
Proof.
  intros Hswo. revert acc. induction l as [|vi l IH]; intros acc Hacc; simpl.
  - exact Hacc.
  - apply IH, insert_pos_descending; [exact Hswo | exact Hacc].
Qed.

(** On elements in a strict weak order the insertion argsort meets the
    promise of [np.argsort]. *)
Lemma insertion_argsort_spec (xs : list A) :
  strict_weak_order → argsort_spec xs (insertion_argsort xs).
Proof.
  intros Hswo. split; [apply insertion_argsort_Permutation|].
  unfold ascending, insertion_argsort.
  apply (StronglySorted_reverse
           (λ a b, num_less (elem xs a) (elem xs b) = false)).
  apply insertion_fold_descending; [exact Hswo | constructor].
Qed.

(** A position that is greater than all those sorted so far is put before
    those it ties with only: the sort is stable. *)
Lemma insert_pos_ties (xs : list A) vi tosort :
  Forall (λ vk, vk < vi) tosort →
  ties_descending xs tosort → ties_descending xs (insert_pos xs vi tosort).
Proof.
  unfold ties_descending.
  induction tosort as [|vk rest IH]; intros Hlt Hs; simpl.
  - repeat constructor.
  - apply Forall_cons in Hlt as [Hvk Hlt].
    apply StronglySorted_cons in Hs as [Hties Hrest].
    destruct (num_less (elem xs vi) (elem xs vk)) eqn:Hless.
    + apply StronglySorted_cons. split; [|apply IH; assumption].
      rewrite insert_pos_Permutation. constructor; [|exact Hties].
      intros Hno. congruence.
    + apply StronglySorted_cons. split.
      * constructor; [intros _; exact Hvk|].
        eapply Forall_impl; [exact Hlt|]. simpl. intros b Hb _. exact Hb.
      * apply StronglySorted_cons. split; [exact Hties | exact Hrest].
Qed.

Lemma insertion_fold_ties (xs : list A) (k n : nat) (acc : list nat) :
  Forall (λ vk, vk < k) acc →
  ties_descending xs acc →
  ties_descending xs
    (fold_left (λ tosort vi, insert_pos xs vi tosort) (seq k n) acc).
Proof.
  revert k acc. induction n as [|n IH]; intros k acc Hlt Hacc; simpl.
  - exact Hacc.
  - apply IH.
    + rewrite insert_pos_Permutation. constructor; [lia|].
      eapply Forall_impl; [exact Hlt|]. simpl. lia.
    + apply insert_pos_ties; [exact Hlt | exact Hacc].
Qed.

Lemma insertion_desc_ties (xs : list A) :
  ties_descending xs (insertion_desc xs).
Proof.
  apply insertion_fold_ties; constructor.
Qed.

Lemma insertion_argsort_stable (xs : list A) :
  stable xs (insertion_argsort xs).
Proof.
  unfold stable, insertion_argsort.
  apply (StronglySorted_reverse
           (λ a b, num_less (elem xs b) (elem xs a) = false → b < a)).
  apply insertion_desc_ties.
Qed.

(** The insertion sort looks at its array through comparisons only. *)
Lemma insert_pos_same_order (xs ys : list A) vi tosort :
  same_order xs ys →
  vi < length xs → Forall (λ vk, vk < length xs) tosort →
  insert_pos xs vi tosort = insert_pos ys vi tosort.
Proof.
  intros [_ Hcmp] Hvi. induction 1 as [|vk rest Hvk Hrest IH]; simpl.
  - reflexivity.
  - rewrite <- (Hcmp vi vk Hvi Hvk), IH. reflexivity.
Qed.

Lemma insertion_fold_same_order (xs ys : list A) (l acc : list nat) :
  same_order xs ys →
  Forall (λ vk, vk < length xs) l → Forall (λ vk, vk < length xs) acc →
  fold_left (λ tosort vi, insert_pos xs vi tosort) l acc =
  fold_left (λ tosort vi, insert_pos ys vi tosort) l acc.
Proof.
  intros Hso Hl. revert acc.
  induction Hl as [|vi l Hvi Hl IH]; intros acc Hacc; simpl.
  - reflexivity.
  - rewrite <- (insert_pos_same_order xs ys vi acc Hso Hvi Hacc).
    apply IH. rewrite insert_pos_Permutation. constructor; assumption.
Qed.

Lemma insertion_argsort_comparison_sort :
  comparison_sort (insertion_argsort (A:=A)).
Proof.
  intros xs ys Hso. unfold insertion_argsort, insertion_desc.
  destruct Hso as [Hlen Hcmp]. rewrite <- Hlen. f_equal.
  apply insertion_fold_same_order; [split; assumption | | constructor].
  apply Forall_forall. intros i Hi. apply elem_of_seq in Hi. lia.
Qed.

End InsertionSort.

(** ** The two orders *)

Lemma F32_less_key (a b : F32.t) :
  F32.less a b = true ↔ F32.key_lt (F32.key a) (F32.key b).
Proof.
  unfold F32.less, F32.key_lt, SFltb, SFcompare.
  destruct a as [sa|sa| |sa ma ea], b as [sb|sb| |sb mb eb];
    try destruct sa; try destruct sb; simpl;
    try (split; [intros; try discriminate; lia | intros; try reflexivity; lia]).
  - change (Pos.compare_cont Eq ma mb) with (Pos.compare ma mb).
    destruct (Z.compare_spec ea eb), (Pos.compare_spec ma mb); simpl;
      (split; [intros; try discriminate; lia | intros; try reflexivity; lia]).
  - change (Pos.compare_cont Eq ma mb) with (Pos.compare ma mb).
    destruct (Z.compare_spec ea eb), (Pos.compare_spec ma mb); simpl;
      (split; [intros; try discriminate; lia | intros; try reflexivity; lia]).
Qed.

Lemma F32_less_false (a b : F32.t) :
  F32.less a b = false ↔ ¬ F32.key_lt (F32.key a) (F32.key b).
Proof.
  rewrite <- F32_less_key. destruct (F32.less a b); split; congruence.
Qed.

Lemma F32_strict_weak_order : strict_weak_order (A:=F32.t).
Proof.
  split.
  - intros x y. simpl. rewrite F32_less_key, F32_less_false.
    unfold F32.key_lt. lia.
  - intros x y z. simpl. rewrite !F32_less_false.
    unfold F32.key_lt. lia.
Qed.

(** On floats that are not NaN, "not less" in the sorting order is the
    IEEE comparison [>=]. *)
Lemma F32_leb_key (a b : F32.t) :
  F32.is_nan a = false → F32.is_nan b = false →
  SFleb b a = true ↔ ¬ F32.key_lt (F32.key a) (F32.key b).
Proof.
  unfold F32.key_lt, SFleb, SFcompare.
  destruct a as [sa|sa| |sa ma ea], b as [sb|sb| |sb mb eb];
    try destruct sa; try destruct sb; simpl; intros Ha Hb;
    try discriminate Ha; try discriminate Hb;
    try (split; [intros; try discriminate; lia | intros; try reflexivity; lia]).
  all: change (Pos.compare_cont Eq mb ma) with (Pos.compare mb ma);
    destruct (Z.compare_spec eb ea), (Pos.compare_spec mb ma); simpl;
    (split; [intros; try discriminate; lia | intros; try reflexivity; lia]).
Qed.

Lemma F32_not_less_ge (a b : F32.t) :
  F32.is_nan a = false → F32.is_nan b = false →
  F32.less a b = false ↔ SFleb b a = true.
Proof.
  intros Ha Hb. rewrite F32_less_false, (F32_leb_key a b Ha Hb). reflexivity.
Qed.

Lemma Rless_true (a b : R) : Rless a b = true ↔ (a < b)%R.
Proof. unfold Rless. destruct (Rlt_dec a b); split; auto; discriminate. Qed.

Lemma Rless_false (a b : R) : Rless a b = false ↔ (b <= a)%R.
Proof.
  unfold Rless. destruct (Rlt_dec a b); split; intros; try lra; auto.
Qed.

Lemma R_strict_weak_order : strict_weak_order (A:=R).
Proof.
  split.
  - intros x y. simpl. rewrite Rless_true, Rless_false. lra.
  - intros x y z. simpl. rewrite !Rless_false. lra.
Qed.

(** ** The store and the iterator *)
Section Store.
Context {A : Type} `{Numeric A}.
Variable argsort : list A → list nat.
Variable D : nat.
Variable english_words : list string.
Variable english_embeddings : list (list A).

Lemma length_normalized_embeddings :
  length (normalized_embeddings english_embeddings)
  = length english_embeddings.
Proof.
  unfold normalized_embeddings, divide_rows, norms, np_linalg_norm.
  apply length_zip_with_l_eq. rewrite length_fmap. reflexivity.
Qed.

(** Every row is divided by its own norm. *)
Lemma normalized_embeddings_lookup i row :
  english_embeddings !! i = Some row →
  normalized_embeddings english_embeddings !! i
  = Some ((λ x, num_div x (norm row)) <$> row).
Proof.
  intros Hrow.
  unfold normalized_embeddings, divide_rows, norms, np_linalg_norm.
  rewrite lookup_zip_with, list_lookup_fmap, Hrow. reflexivity.
Qed.

Lemma length_all_scores v :
  length (all_scores english_embeddings v) = length english_embeddings.
Proof.
  unfold all_scores.
  rewrite length_fmap. apply length_normalized_embeddings.
Qed.

Lemma np_dot_mat_shape M v :
  length v = D → np_dot_mat D M v = Ok ((λ row, dot row v) <$> M).
Proof. intros Hv. unfold np_dot_mat. rewrite decide_True; done. Qed.

(** The comprehension returns when the iterator has [k] positions left,
    and then it returns their words. *)
Lemma take_next_Ok k : ∀ it ws,
  take_next english_words k it = Ok ws ↔
  k ≤ length it ∧ words_of english_words (take k it) ws.
Proof.
  unfold words_of.
  induction k as [|k IH]; intros it ws; simpl.
  - rewrite take_0. split.
    + intros [= <-]. split; [lia | constructor].
    + intros [_ Hws]. inversion Hws. reflexivity.
  - destruct it as [|i it]; simpl.
    + split; [discriminate|]. intros [Hk _]. lia.
    + unfold list_get. destruct (english_words !! i) as [w|] eqn:Hw; simpl.
      * destruct (take_next english_words k it) as [ws'|e] eqn:Hrec; simpl.
        -- apply IH in Hrec as [Hk Hws']. split.
           ++ intros [= <-]. split; [lia|]. constructor; assumption.
           ++ intros [_ Hws]. inversion Hws as [|? w' ? ws'' Hw' Hrest]; subst.
              f_equal. f_equal; [congruence|].
              assert (Hsome : take_next english_words k it = Ok ws'').
              { apply IH. split; assumption. }
              apply IH in Hsome as [_ Hsome].
              eapply Forall2_unique; [exact Hws'| exact Hrest |].
              intros ? ? ?. congruence.
        -- split; [discriminate|]. intros [Hk Hws].
           inversion Hws as [|? w' ? ws'' Hw' Hrest]; subst.
           assert (Hsome : take_next english_words k it = Ok ws'').
           { apply IH. split; [lia | assumption]. }
           congruence.
      * split; [discriminate|]. intros [_ Hws].
        inversion Hws; subst. congruence.
Qed.

(** Asked for more words than it has positions, all of them rows of the
    vocabulary, the iterator runs out. *)
Lemma take_next_StopIteration it : ∀ k,
  length it < k →
  Forall (λ i, i < length english_words) it →
  take_next english_words k it = Raise StopIteration.
Proof.
  induction it as [|i it IH]; intros k Hk Hit.
  - destruct k; [simpl in Hk; lia | reflexivity].
  - destruct k as [|k]; [simpl in Hk; lia|].
    apply Forall_cons in Hit as [Hi Hit]. simpl in *.
    apply lookup_lt_is_Some_2 in Hi as [w Hw].
    unfold list_get. rewrite Hw. simpl.
    rewrite IH; [reflexivity | lia | exact Hit].
Qed.

(** Rows of the vocabulary have words. *)
Lemma words_of_exists ps :
  Forall (λ i, i < length english_words) ps →
  ∃ ws, words_of english_words ps ws.
Proof.
  unfold words_of. induction 1 as [|i ps Hi Hps [ws IH]].
  - exists []. constructor.
  - apply lookup_lt_is_Some_2 in Hi as [w Hw].
    exists (w :: ws). constructor; assumption.
Qed.

Lemma words_of_elem ps ws i w :
  words_of english_words ps ws →
  i ∈ ps → english_words !! i = Some w → w ∈ ws.
Proof.
  unfold words_of. induction 1 as [|p w' ps ws Hp Hrest IH]; intros Hi Hw.
  - inversion Hi.
  - apply elem_of_cons in Hi as [->|Hi].
    + rewrite Hw in Hp. injection Hp as ->. apply list_elem_of_here.
    + apply list_elem_of_further. apply IH; assumption.
Qed.

(** With a query of the right shape, [closest_to_vector] returns exactly
    when the argsort has [n] positions, the words of [best_rows]. *)
Lemma closest_to_vector_Ok v n ws :
  length v = D →
  closest_to_vector argsort D english_words english_embeddings v n = Ok ws ↔
  Z.to_nat n ≤ length (argsort (all_scores english_embeddings v)) ∧
  words_of english_words (best_rows argsort english_embeddings v n) ws.
Proof.
  intros Hv. unfold closest_to_vector, best_rows.
  rewrite np_dot_mat_shape by exact Hv. simpl.
  rewrite take_next_Ok, length_reverse. reflexivity.
Qed.

(** What the contract of the argsort gives for the scores of a query. *)
Lemma argsort_positions v :
  argsort_spec (all_scores english_embeddings v)
               (argsort (all_scores english_embeddings v)) →
  length english_words = length english_embeddings →
  length (argsort (all_scores english_embeddings v)) = length english_words
  ∧ Forall (λ i, i < length english_words)
           (argsort (all_scores english_embeddings v))
  ∧ NoDup (argsort (all_scores english_embeddings v)).
Proof.
  intros [Hperm _] Hlen. rewrite length_all_scores, <- Hlen in Hperm.
  split; [|split].
  - rewrite Hperm. apply length_seq.
  - rewrite Hperm. apply Forall_forall. intros i Hi.
    apply elem_of_seq in Hi. lia.
  - rewrite Hperm. apply NoDup_seq.
Qed.

End Store.

(** ** The example store *)

Lemma insertion_argsort_float32 (xs : list F32.t) :
  argsort_spec xs (insertion_argsort xs).
Proof. apply insertion_argsort_spec, F32_strict_weak_order. Qed.

Lemma example_well_formed :
  well_formed 2 Example.words Example.embeddings.
Proof. split; [reflexivity | repeat constructor]. Qed.

(** ** Ranking *)

(** C1. For a query of the dimension of the store and [0 <= n <= V],
    [closest_to_vector] returns exactly [n] words.  They are the words of
    [n] different rows, listed so that the scores of the rows against the
    query never increase, and no row left out scores higher than a row
    listed: the [n] highest-scoring words in descending order of score. *)
Theorem closest_to_vector_ranked {A : Type} `{Numeric A}
    (argsort : list A → list nat) (D : nat) (english_words : list string)
    (english_embeddings : list (list A)) (v : list A) (n : Z) :
  (∀ xs, argsort_spec xs (argsort xs)) →
  well_formed D english_words english_embeddings →
  length v = D →
  (0 ≤ n ≤ Z.of_nat (length english_words))%Z →
  ∃ ws,
    closest_to_vector argsort D english_words english_embeddings v n = Ok ws
    ∧ Z.of_nat (length ws) = n
    ∧ words_of english_words (best_rows argsort english_embeddings v n) ws
    ∧ NoDup (best_rows argsort english_embeddings v n)
    ∧ non_increasing (all_scores english_embeddings v)
                     (best_rows argsort english_embeddings v n)
    ∧ highest (all_scores english_embeddings v)
              (best_rows argsort english_embeddings v n).
Proof.
  intros Hsort [Hlen _] Hv Hn.
  pose proof (Hsort (all_scores english_embeddings v)) as Hspec.
  destruct (argsort_positions argsort english_words english_embeddings v
              Hspec Hlen) as (Hplen & Hvalid & Hnodup).
  destruct Hspec as [Hperm Hasc].
  assert (Hrows : Forall (λ i, i < length english_words)
                    (best_rows argsort english_embeddings v n)).
  { unfold best_rows. apply Forall_take, Forall_reverse, Hvalid. }
  destruct (words_of_exists english_words _ Hrows) as [ws Hws].
  exists ws. split; [|split; [|split; [|split; [|split]]]].
  - apply closest_to_vector_Ok; [exact Hv|]. split; [|exact Hws].
    rewrite Hplen. lia.
  - apply Forall2_length in Hws. rewrite <- Hws. unfold best_rows.
    rewrite length_take_le; [lia|]. rewrite length_reverse, Hplen. lia.
  - exact Hws.
  - unfold best_rows. eapply sublist_NoDup; [|apply sublist_take].
    rewrite reverse_Permutation. exact Hnodup.
  - unfold non_increasing, best_rows. apply StronglySorted_take.
    apply (StronglySorted_reverse
             (λ a b, num_less (elem (all_scores english_embeddings v) b)
                              (elem (all_scores english_embeddings v) a)
                     = false)).
    exact Hasc.
  - intros a b Ha Hb Hnb. unfold best_rows in *.
    assert (Hin : b ∈ reverse (argsort (all_scores english_embeddings v))).
    { rewrite elem_of_reverse, Hperm. apply elem_of_seq. lia. }
    rewrite <- (take_drop (Z.to_nat n)) in Hin.
    apply elem_of_app in Hin as [Hin|Hin]; [contradiction|].
    apply (StronglySorted_reverse
             (λ a b, num_less (elem (all_scores english_embeddings v) b)
                              (elem (all_scores english_embeddings v) a)
                     = false)) in Hasc.
    rewrite <- (take_drop (Z.to_nat n)) in Hasc.
    exact (StronglySorted_app_1_elem_of _ _ _ _ _ Hasc Ha Hin).
Qed.

Lemma closest_to_vector_ranked_witness :
  (0 ≤ 2 ≤ Z.of_nat (length Example.words))%Z ∧
  ∃ ws,
    closest_to_vector insertion_argsort 2 Example.words Example.embeddings
      Example.query 2 = Ok ws
    ∧ Z.of_nat (length ws) = 2%Z
    ∧ words_of Example.words
        (best_rows insertion_argsort Example.embeddings Example.query 2) ws
    ∧ NoDup (best_rows insertion_argsort Example.embeddings Example.query 2)
    ∧ non_increasing (all_scores Example.embeddings Example.query)
        (best_rows insertion_argsort Example.embeddings Example.query 2)
    ∧ highest (all_scores Example.embeddings Example.query)
        (best_rows insertion_argsort Example.embeddings Example.query 2).
Proof.
  split; [simpl; lia|].
  apply closest_to_vector_ranked.
  - exact insertion_argsort_float32.
  - exact example_well_formed.
  - reflexivity.
  - simpl. lia.
Defined.

(** The scenario of the specification: the two words closest to [1, 0]. *)
Example closest_to_vector_scenario :
  closest_to_vector insertion_argsort 2 Example.words Example.embeddings
    Example.query 2 = Ok ["cat"; "dog"]%string.
Proof. vm_compute. reflexivity. Qed.

(** C3, as the code has it.  Asked for more words than the vocabulary has,
    [closest_to_vector] does not clamp [n]: the iterator runs out after [V]
    words and the call raises [StopIteration]. *)
Theorem closest_to_vector_beyond_vocabulary {A : Type} `{Numeric A}
    (argsort : list A → list nat) (D : nat) (english_words : list string)
    (english_embeddings : list (list A)) (v : list A) (n : Z) :
  (∀ xs, argsort_spec xs (argsort xs)) →
  well_formed D english_words english_embeddings →
  length v = D →
  (Z.of_nat (length english_words) < n)%Z →
  closest_to_vector argsort D english_words english_embeddings v n
  = Raise StopIteration.
Proof.
  intros Hsort [Hlen _] Hv Hn.
  destruct (argsort_positions argsort english_words english_embeddings v
              (Hsort _) Hlen) as (Hplen & Hvalid & _).
  unfold closest_to_vector. rewrite np_dot_mat_shape by exact Hv. simpl.
  apply take_next_StopIteration.
  - rewrite length_reverse. fold (all_scores english_embeddings v).
    rewrite Hplen. lia.
  - apply Forall_reverse. exact Hvalid.
Qed.

Lemma closest_to_vector_beyond_vocabulary_witness :
  (Z.of_nat (length Example.words) < 4)%Z ∧
  closest_to_vector insertion_argsort 2 Example.words Example.embeddings
    Example.query 4 = Raise StopIteration.
Proof.
  split; [simpl; lia|].
  apply closest_to_vector_beyond_vocabulary.
  - exact insertion_argsort_float32.
  - exact example_well_formed.
  - reflexivity.
  - simpl. lia.
Defined.

(** C3 fails as stated: with three words in the vocabulary and [n = 4] the
    call does not return the three words, it raises. *)
Lemma closest_to_vector_no_clamp :
  (Z.of_nat (length Example.words) < 4)%Z ∧
  ¬ returns (closest_to_vector insertion_argsort 2 Example.words
               Example.embeddings Example.query 4).
Proof.
  split; [simpl; lia|].
  intros [ws Hws]. vm_compute in Hws. discriminate Hws.
Qed.

(** A prefix of the reversed list has its entries in the opposite order. *)
Lemma precedes_take_reverse (p : list nat) (k a b : nat) :
  precedes (take k (reverse p)) a b → precedes p b a.
Proof.
  intros (i & j & Hij & Hi & Hj).
  apply lookup_take_Some in Hi as [Hi _].
  apply lookup_take_Some in Hj as [Hj _].
  apply reverse_lookup_Some in Hi as [Hi Hil].
  apply reverse_lookup_Some in Hj as [Hj Hjl].
  exists (length p - S j), (length p - S i).
  split; [lia|]. split; assumption.
Qed.

(** The promise of [np.argsort] leaves the order of equal elements open:
    an order that keeps it still keeps it after two neighbours, of which
    the first is not less than the second, change places. *)
Lemma argsort_spec_swap {A : Type} `{Numeric A} (xs : list A)
    (l1 l2 : list nat) (a b : nat) :
  argsort_spec xs (l1 ++ a :: b :: l2) →
  num_less (elem xs a) (elem xs b) = false →
  argsort_spec xs (l1 ++ b :: a :: l2).
Proof.
  intros [Hperm Hasc] Htie. split.
  - rewrite <- Hperm. apply Permutation_app_head, perm_swap.
  - unfold ascending in *.
    apply StronglySorted_app in Hasc as (Hcross & H1 & H2).
    apply StronglySorted_app. split; [|split; [exact H1|]].
    + intros x1 x2 Hx1 Hx2. apply Hcross; [exact Hx1|].
      rewrite !elem_of_cons in Hx2. rewrite !elem_of_cons. tauto.
    + inversion H2 as [|? ? Hb Ha]; subst.
      inversion Hb as [|? ? Hl2 Hbl]; subst.
      inversion Ha as [|? ? Hab Hal]; subst.
      repeat constructor; assumption.
Qed.

(** C4, as the code has it.  The scores are sorted by [np.argsort] and the
    order is reversed: the rows come in descending order of score, and any
    two rows of the result, rows with exactly equal scores among them,
    stand in the opposite order to the one the argsort left them in.  That
    order is not fixed by what [np.argsort] promises: had it returned two
    neighbours with equal scores the other way round, it would have kept
    its promise as well. *)
Theorem closest_to_vector_ties_as_argsort {A : Type} `{Numeric A}
    (argsort : list A → list nat) (D : nat) (english_words : list string)
    (english_embeddings : list (list A)) (v : list A) (n : Z)
    (ws : list string) :
  (∀ xs, argsort_spec xs (argsort xs)) →
  closest_to_vector argsort D english_words english_embeddings v n = Ok ws →
  words_of english_words (best_rows argsort english_embeddings v n) ws
  ∧ non_increasing (all_scores english_embeddings v)
                   (best_rows argsort english_embeddings v n)
  ∧ (∀ a b, precedes (best_rows argsort english_embeddings v n) a b →
            precedes (argsort (all_scores english_embeddings v)) b a)
  ∧ (∀ l1 a b l2,
       argsort (all_scores english_embeddings v) = l1 ++ a :: b :: l2 →
       num_less (elem (all_scores english_embeddings v) a)
                (elem (all_scores english_embeddings v) b) = false →
       argsort_spec (all_scores english_embeddings v) (l1 ++ b :: a :: l2)).
Proof.
  intros Hsort Hws.
  assert (Hv : length v = D).
  { unfold closest_to_vector, np_dot_mat in Hws.
    destruct (decide (length v = D)); [assumption | discriminate Hws]. }
  apply closest_to_vector_Ok in Hws as [_ Hws]; [|exact Hv].
  split; [exact Hws|]. split; [|split].
  - unfold non_increasing, best_rows. apply StronglySorted_take.
    apply (StronglySorted_reverse
             (λ a b, num_less (elem (all_scores english_embeddings v) b)
                              (elem (all_scores english_embeddings v) a)
                     = false)).
    apply Hsort.
  - intros a b. unfold best_rows. apply precedes_take_reverse.
  - intros l1 a b l2 Hp Htie. apply argsort_spec_swap; [|exact Htie].
    rewrite <- Hp. apply Hsort.
Qed.

Lemma closest_to_vector_ties_as_argsort_witness :
  closest_to_vector insertion_argsort 2 Example.words Example.embeddings
    Example.tied_query 3 = Ok ["dog"; "car"; "cat"]%string ∧
  insertion_argsort (all_scores Example.embeddings Example.tied_query)
  = [0; 2; 1] ∧
  words_of Example.words
    (best_rows insertion_argsort Example.embeddings Example.tied_query 3)
    ["dog"; "car"; "cat"]%string
  ∧ non_increasing (all_scores Example.embeddings Example.tied_query)
      (best_rows insertion_argsort Example.embeddings Example.tied_query 3)
  ∧ (∀ a b,
       precedes
         (best_rows insertion_argsort Example.embeddings Example.tied_query 3)
         a b →
       precedes
         (insertion_argsort
            (all_scores Example.embeddings Example.tied_query)) b a)
  ∧ argsort_spec (all_scores Example.embeddings Example.tied_query) [2; 0; 1].
Proof.
  split; [vm_compute; reflexivity|]. split; [vm_compute; reflexivity|].
  destruct (closest_to_vector_ties_as_argsort insertion_argsort 2
              Example.words Example.embeddings Example.tied_query 3
              ["dog"; "car"; "cat"]%string) as (Hw & Hn & Hp & Hs).
  - exact insertion_argsort_float32.
  - vm_compute. reflexivity.
  - split; [exact Hw|]. split; [exact Hn|]. split; [exact Hp|].
    apply (Hs [] 0 2 [1]); vm_compute; reflexivity.
Defined.

(** C4 fails as stated: "cat" (row 0) and "car" (row 2) score exactly the
    same against [1, 1], and "car", the later row, is listed first. *)
Lemma ties_not_in_vocabulary_order :
  elem (all_scores Example.embeddings Example.tied_query) 0
  = elem (all_scores Example.embeddings Example.tied_query) 2 ∧
  best_rows insertion_argsort Example.embeddings Example.tied_query 3
  = [1; 2; 0] ∧
  closest_to_vector insertion_argsort 2 Example.words Example.embeddings
    Example.tied_query 3 = Ok ["dog"; "car"; "cat"]%string.
Proof. repeat split; vm_compute; reflexivity. Qed.

(** C7. A word of the vocabulary whose normalized vector scores strictly
    higher against itself than every other row does is its own nearest
    neighbour: [most_similar w 1] is [[w]]. *)
Theorem most_similar_self {A : Type} `{Numeric A}
    (argsort : list A → list nat) (D : nat) (english_words : list string)
    (english_embeddings : list (list A)) (w : string) (i : nat)
    (v : list A) :
  (∀ xs, argsort_spec xs (argsort xs)) →
  well_formed D english_words english_embeddings →
  index english_words !! w = Some i →
  normalized_embeddings english_embeddings !! i = Some v →
  (∀ j, j < length english_words → j ≠ i →
     num_less (elem (all_scores english_embeddings v) j)
              (elem (all_scores english_embeddings v) i) = true) →
  embedding english_words english_embeddings w = Ok v ∧
  closest_to_vector argsort D english_words english_embeddings v 1 = Ok [w] ∧
  most_similar argsort D english_words english_embeddings w 1 = Ok [w].
Proof.
  intros Hsort [Hlen Hcols] Hi Hv Hmax.
  assert (Hemb : embedding english_words english_embeddings w = Ok v).
  { unfold embedding, dict_get, list_get. rewrite Hi. simpl.
    rewrite Hv. reflexivity. }
  assert (HvD : length v = D).
  { apply lookup_lt_Some in Hv as Hlt.
    rewrite length_normalized_embeddings in Hlt.
    apply lookup_lt_is_Some_2 in Hlt as [row Hrow].
    rewrite (normalized_embeddings_lookup _ _ _ Hrow) in Hv.
    injection Hv as <-. rewrite length_fmap.
    rewrite Forall_forall in Hcols. apply Hcols.
    eapply list_elem_of_lookup_2. exact Hrow. }
  pose proof (Hsort (all_scores english_embeddings v)) as Hspec.
  destruct (argsort_positions argsort english_words english_embeddings v
              Hspec Hlen) as (Hplen & Hvalid & _).
  destruct Hspec as [Hperm Hasc].
  pose proof (index_lt _ _ _ Hi) as Hlt.
  pose proof (proj1 (proj1 (index_Some _ _ _) Hi)) as Hw.
  assert (Hlast : last (argsort (all_scores english_embeddings v)) = Some i).
  { destruct (last (argsort (all_scores english_embeddings v)))
      as [y|] eqn:Hy.
    - assert (Hin : i ∈ argsort (all_scores english_embeddings v)).
      { rewrite Hperm. apply elem_of_seq.
        rewrite length_all_scores, <- Hlen. lia. }
      destruct (StronglySorted_last _ _ _ _ Hasc Hy Hin) as [->|Hle];
        [reflexivity|].
      destruct (decide (y = i)) as [->|Hne]; [reflexivity|].
      rewrite Hmax in Hle; [discriminate Hle | | exact Hne].
      rewrite Forall_forall in Hvalid. apply Hvalid.
      apply last_Some_elem_of. exact Hy.
    - apply last_None in Hy. rewrite Hy in Hplen. simpl in Hplen. lia. }
  assert (Hclosest : closest_to_vector argsort D english_words
                       english_embeddings v 1 = Ok [w]).
  { apply closest_to_vector_Ok; [exact HvD|]. split.
    - rewrite Hplen. simpl. lia.
    - unfold best_rows, words_of. rewrite <- head_reverse in Hlast.
      apply head_Some in Hlast as [rest ->]. simpl.
      repeat constructor. exact Hw. }
  split; [exact Hemb|]. split; [exact Hclosest|].
  unfold most_similar. rewrite Hemb. exact Hclosest.
Qed.

Lemma most_similar_self_witness :
  index Example.words !! "dog"%string = Some 1 ∧
  most_similar insertion_argsort 2 Example.words Example.embeddings
    "dog" 1 = Ok ["dog"%string].
Proof.
  split; [vm_compute; reflexivity|].
  refine (proj2 (proj2 (most_similar_self insertion_argsort 2 Example.words
            Example.embeddings "dog" 1
            (default [] (normalized_embeddings Example.embeddings !! 1))
            _ _ _ _ _))).
  - exact insertion_argsort_float32.
  - exact example_well_formed.
  - vm_compute. reflexivity.
  - vm_compute. reflexivity.
  - intros [|[|[|j]]] Hj Hne; simpl in Hj; try lia; vm_compute; reflexivity.
Defined.

(** ** Lookups and the analogy solver *)

(** A lookup either fails on the key or, in a well-formed store, returns
    the row. *)
Lemma embedding_cases {A : Type} `{Numeric A} (D : nat)
    (english_words : list string) (english_embeddings : list (list A))
    (w : string) :
  well_formed D english_words english_embeddings →
  embedding english_words english_embeddings w = Raise KeyError
  ∨ ∃ v, embedding english_words english_embeddings w = Ok v.
Proof.
  intros [Hlen _]. unfold embedding, dict_get.
  destruct (index english_words !! w) as [i|] eqn:Hi; simpl; [|left; reflexivity].
  right. apply index_lt in Hi.
  rewrite Hlen, <- length_normalized_embeddings in Hi.
  apply lookup_lt_is_Some_2 in Hi as [v Hv]. exists v.
  unfold list_get. rewrite Hv. reflexivity.
Qed.

Lemma embedding_absent {A : Type} `{Numeric A}
    (english_words : list string) (english_embeddings : list (list A))
    (w : string) :
  w ∉ english_words →
  embedding english_words english_embeddings w = Raise KeyError.
Proof.
  intros Hw. apply index_None in Hw.
  unfold embedding, dict_get. rewrite Hw. reflexivity.
Qed.

(** C5. For words of the index, [solve_analogy a b c] is the result of
    [closest_to_vector] on [embedding b - embedding a + embedding c] (with
    [n = 10]), and nothing is filtered out of it: an input word whose row
    is among the rows ranked first is in the list returned. *)
Theorem solve_analogy_delegates {A : Type} `{Numeric A}
    (argsort : list A → list nat) (D : nat) (english_words : list string)
    (english_embeddings : list (list A)) (a1 b1 a2 : string)
    (va vb vc : list A) :
  embedding english_words english_embeddings a1 = Ok va →
  embedding english_words english_embeddings b1 = Ok vb →
  embedding english_words english_embeddings a2 = Ok vc →
  solve_analogy argsort D english_words english_embeddings a1 b1 a2
  = closest_to_vector argsort D english_words english_embeddings
      (vadd (vsub vb va) vc) 10
  ∧ ∀ ws w i,
      solve_analogy argsort D english_words english_embeddings a1 b1 a2
      = Ok ws →
      w ∈ [a1; b1; a2] →
      index english_words !! w = Some i →
      i ∈ best_rows argsort english_embeddings (vadd (vsub vb va) vc) 10 →
      w ∈ ws.
Proof.
  intros Ha Hb Hc.
  assert (Hsolve :
    solve_analogy argsort D english_words english_embeddings a1 b1 a2
    = closest_to_vector argsort D english_words english_embeddings
        (vadd (vsub vb va) vc) 10).
  { unfold solve_analogy. rewrite Hb. simpl. rewrite Ha. simpl.
    rewrite Hc. reflexivity. }
  split; [exact Hsolve|].
  intros ws w i Hws _ Hi Hbest. rewrite Hsolve in Hws.
  assert (Hv : length (vadd (vsub vb va) vc) = D).
  { unfold closest_to_vector, np_dot_mat in Hws.
    destruct (decide (length (vadd (vsub vb va) vc) = D));
      [assumption | discriminate Hws]. }
  apply closest_to_vector_Ok in Hws as [_ Hws]; [|exact Hv].
  apply index_Some in Hi as [Hw _].
  eapply words_of_elem; [exact Hws | exact Hbest | exact Hw].
Qed.

Lemma solve_analogy_delegates_witness :
  ∃ ws,
    solve_analogy insertion_argsort 2 Example.analogy_words
      Example.analogy_embeddings "man" "king" "woman" = Ok ws
    ∧ "woman"%string ∈ ws.
Proof.
  pose (row := λ i,
    default [] (normalized_embeddings Example.analogy_embeddings !! i)).
  destruct (solve_analogy_delegates insertion_argsort 2
              Example.analogy_words Example.analogy_embeddings
              "man" "king" "woman" (row 0) (row 2) (row 1))
    as [_ Hkeep]; [vm_compute; reflexivity ..|].
  eexists. split; [vm_compute; reflexivity|].
  apply (Hkeep _ "woman"%string 1).
  - vm_compute. reflexivity.
  - do 2 apply list_elem_of_further. apply list_elem_of_here.
  - vm_compute. reflexivity.
  - replace (best_rows insertion_argsort Example.analogy_embeddings
               (vadd (vsub (row 2) (row 0)) (row 1)) 10)
      with [1; 9; 3; 7; 5; 10; 6; 2; 0; 8] by (vm_compute; reflexivity).
    apply list_elem_of_here.
Defined.

(** "man" is to "king" as "woman" is to: the three input words are all in
    the answer, "woman" first. *)
Example solve_analogy_keeps_inputs :
  solve_analogy insertion_argsort 2 Example.analogy_words
    Example.analogy_embeddings "man" "king" "woman"
  = Ok ["woman"; "aunt"; "queen"; "princess"; "girl"; "duke"; "prince";
        "king"; "man"; "uncle"]%string.
Proof. vm_compute. reflexivity. Qed.

(** C9. A word that is not in the vocabulary is not in the index, and every
    lookup of it raises [KeyError] to the caller: in [similarity_score]
    for either word, in [solve_analogy] for any of the three, and in
    [most_similar].  No call returns a result. *)
Theorem absent_word_raises {A : Type} `{Numeric A}
    (argsort : list A → list nat) (D : nat) (english_words : list string)
    (english_embeddings : list (list A)) (w : string) :
  well_formed D english_words english_embeddings →
  w ∉ english_words →
  index english_words !! w = None
  ∧ (∀ w',
       similarity_score english_words english_embeddings w w'
       = Raise KeyError
       ∧ similarity_score english_words english_embeddings w' w
         = Raise KeyError)
  ∧ (∀ x y,
       solve_analogy argsort D english_words english_embeddings w x y
       = Raise KeyError
       ∧ solve_analogy argsort D english_words english_embeddings x w y
         = Raise KeyError
       ∧ solve_analogy argsort D english_words english_embeddings x y w
         = Raise KeyError)
  ∧ (∀ n,
       most_similar argsort D english_words english_embeddings w n
       = Raise KeyError).
Proof.
  intros Hwf Hw.
  pose proof (embedding_absent english_words english_embeddings w Hw) as He.
  split; [apply index_None, Hw|]. split; [|split].
  - intros w'. unfold similarity_score. rewrite He. split; [reflexivity|].
    destruct (embedding_cases D english_words english_embeddings w' Hwf)
      as [-> | [v ->]]; reflexivity.
  - intros x y. unfold solve_analogy. rewrite He.
    destruct (embedding_cases D english_words english_embeddings x Hwf)
      as [-> | [vx ->]];
    destruct (embedding_cases D english_words english_embeddings y Hwf)
      as [-> | [vy ->]]; repeat split; reflexivity.
  - intros n. unfold most_similar. rewrite He. reflexivity.
Qed.

Lemma absent_word_raises_witness :
  ("dug"%string ∉ Example.words) ∧
  similarity_score Example.words Example.embeddings "dog" "dug"
  = Raise KeyError.
Proof.
  assert (Hw : "dug"%string ∉ Example.words).
  { intros Hin. unfold Example.words in Hin.
    repeat (apply elem_of_cons in Hin as [Hin|Hin]; [discriminate Hin|]).
    inversion Hin. }
  split; [exact Hw|].
  exact (proj2 (proj1 (proj2 (absent_word_raises insertion_argsort 2
           Example.words Example.embeddings "dug" example_well_formed Hw))
           "dog"%string)).
Defined.

(** C10. The index maps every word of the vocabulary, and no other string,
    to the row of its last occurrence: [index[w]] is a position of [w] and
    no position of [w] is greater.  So the word at row [index[w]] is [w]. *)
Theorem index_last_occurrence (english_words : list string) :
  (∀ w, is_Some (index english_words !! w) ↔ w ∈ english_words)
  ∧ (∀ w i,
       index english_words !! w = Some i ↔
       english_words !! i = Some w
       ∧ ∀ j, english_words !! j = Some w → j ≤ i)
  ∧ (∀ w i,
       index english_words !! w = Some i →
       list_get english_words i = Ok w).
Proof.
  split; [|split].
  - intros w. rewrite <- not_eq_None_Some, index_None.
    split; [apply dec_stable | tauto].
  - intros w i. apply index_Some.
  - intros w i Hi. apply index_Some in Hi as [Hw _].
    unfold list_get. rewrite Hw. reflexivity.
Qed.

(** A word that occurs twice is indexed at its second row. *)
Example index_duplicate :
  index ["cat"; "dog"; "cat"]%string !! "cat"%string = Some 2.
Proof. vm_compute. reflexivity. Qed.

(** ** Exact arithmetic *)

Lemma fold_left_Rplus (l : list R) (a : R) :
  fold_left Rplus l a = (a + fold_left Rplus l 0)%R.
Proof.
  revert a. induction l as [|x l IH]; intros a; simpl.
  - lra.
  - rewrite (IH (a + x)%R), (IH (0 + x)%R). lra.
Qed.

Lemma dotR_cons (x y : R) (u v : list R) :
  dot (x :: u) (y :: v) = (x * y + dot u v)%R.
Proof.
  unfold dot. simpl. rewrite fold_left_Rplus. lra.
Qed.

Lemma dotR_scale (u : list R) : ∀ (v : list R) (s : R),
  dot u (vscale s v) = (s * dot u v)%R.
Proof.
  induction u as [|x u IH]; intros [|y v] s;
    try (unfold dot; simpl; lra).
  change (vscale s (y :: v)) with ((s * y)%R :: vscale s v).
  rewrite !dotR_cons, IH. lra.
Qed.

Lemma dotR_div (u : list R) : ∀ (v : list R) (c : R),
  dot ((λ x, (x / c)%R) <$> u) ((λ x, (x / c)%R) <$> v)
  = (dot u v * (/ c * / c))%R.
Proof.
  induction u as [|x u IH]; intros [|y v] c;
    try (unfold dot; simpl; lra).
  rewrite !fmap_cons, !dotR_cons, IH. unfold Rdiv. lra.
Qed.

Lemma dotR_self_nonneg (u : list R) : (0 <= dot u u)%R.
Proof.
  induction u as [|x u IH].
  - unfold dot. simpl. lra.
  - rewrite dotR_cons. nra.
Qed.

(** A row divided by its norm has the dot product 1 with itself. *)
Lemma dotR_normalized (row : list R) :
  norm row ≠ 0%R →
  dot ((λ x, (x / norm row)%R) <$> row) ((λ x, (x / norm row)%R) <$> row)
  = 1%R.
Proof.
  intros Hnorm. rewrite dotR_div.
  assert (Hsq : (norm row * norm row = dot row row)%R).
  { unfold norm. simpl. apply sqrt_sqrt, dotR_self_nonneg. }
  rewrite <- Hsq. field. exact Hnorm.
Qed.

(** Scaling a query by a positive number leaves every comparison of two
    scores as it was. *)
Lemma all_scores_scale_same_order (english_embeddings : list (list R))
    (q : list R) (s : R) :
  (0 < s)%R →
  same_order (all_scores english_embeddings (vscale s q))
             (all_scores english_embeddings q).
Proof.
  intros Hs. split.
  - rewrite !length_all_scores. reflexivity.
  - intros a b _ _. unfold elem, all_scores.
    rewrite !list_lookup_fmap.
    destruct (normalized_embeddings english_embeddings !! a) as [ra|];
      destruct (normalized_embeddings english_embeddings !! b) as [rb|];
      simpl; rewrite ?dotR_scale.
    + unfold Rless.
      destruct (Rlt_dec (s * dot ra q) (s * dot rb q)) as [H1|H1];
        destruct (Rlt_dec (dot ra q) (dot rb q)) as [H2|H2];
        try reflexivity; exfalso; nra.
    + unfold Rless.
      destruct (Rlt_dec (s * dot ra q) 0) as [H1|H1];
        destruct (Rlt_dec (dot ra q) 0) as [H2|H2];
        try reflexivity; exfalso; nra.
    + unfold Rless.
      destruct (Rlt_dec 0 (s * dot rb q)) as [H1|H1];
        destruct (Rlt_dec 0 (dot rb q)) as [H2|H2];
        try reflexivity; exfalso; nra.
    + reflexivity.
Qed.

(** C6, in exact arithmetic.  Over the real numbers, and with an argsort
    that decides by comparisons, scaling the query by a positive number does
    not change what [closest_to_vector] returns, whatever [n] is. *)
Theorem closest_to_vector_scale_exact (argsort : list R → list nat)
    (D : nat) (english_words : list string)
    (english_embeddings : list (list R)) (q : list R) (s : R) (n : Z) :
  comparison_sort argsort →
  (0 < s)%R →
  closest_to_vector argsort D english_words english_embeddings
    (vscale s q) n
  = closest_to_vector argsort D english_words english_embeddings q n.
Proof.
  intros Hcmp Hs.
  assert (Hlen : length (vscale s q) = length q) by apply length_fmap.
  unfold closest_to_vector.
  destruct (decide (length q = D)) as [HD|HD].
  - rewrite !np_dot_mat_shape by congruence. simpl.
    pose proof (Hcmp _ _
      (all_scores_scale_same_order english_embeddings q s Hs)) as Heq.
    unfold all_scores in Heq. rewrite Heq. reflexivity.
  - unfold np_dot_mat. rewrite !decide_False by congruence. reflexivity.
Qed.

Lemma closest_to_vector_scale_exact_witness :
  (0 < 2)%R ∧
  closest_to_vector insertion_argsort 2 Example.words Example.embeddingsR
    (vscale 2%R [1%R; 0%R]) 2
  = closest_to_vector insertion_argsort 2 Example.words Example.embeddingsR
      [1%R; 0%R] 2.
Proof.
  split; [lra|].
  apply closest_to_vector_scale_exact;
    [apply insertion_argsort_comparison_sort | lra].
Defined.

(** C6 fails as stated in binary32, where the scaled query and its scores
    are rounded.  "car" scores one unit in the last place above "cat" on
    the query [2, -1] and one below it on the query scaled by 5, so the
    nearest word changes.  And scaled by the positive float [2^127] the
    query [2, 1] overflows to [inf, 2^127]: "car" then scores NaN, which
    sorts after every number, and comes first where "cat" did. *)
Lemma scaling_changes_ranking_float32 :
  (F32.less F32.zero (Example.f 5) = true
   ∧ closest_to_vector insertion_argsort 2 Example.axis_words
       Example.close_embeddings Example.close_query 1 = Ok ["car"%string]
   ∧ closest_to_vector insertion_argsort 2 Example.axis_words
       Example.close_embeddings
       (vscale (Example.f 5) Example.close_query) 1 = Ok ["cat"%string])
  ∧ (F32.less F32.zero (F32.pow2 127) = true
     ∧ closest_to_vector insertion_argsort 2 Example.axis_words
         Example.axis_embeddings Example.large_query 1 = Ok ["cat"%string]
     ∧ closest_to_vector insertion_argsort 2 Example.axis_words
         Example.axis_embeddings
         (vscale (F32.pow2 127) Example.large_query) 1 = Ok ["car"%string]).
Proof. repeat split; vm_compute; reflexivity. Qed.

(** C8, in exact arithmetic.  For a word of the index whose embedding has a
    norm other than zero, the score of the word with itself is 1: its
    normalized row has the squared norm 1.  This is a fact of the real
    numbers; in binary32 it fails where the squared norm overflows or is
    rounded below the normal range. *)
Theorem similarity_score_self_exact (english_words : list string)
    (english_embeddings : list (list R)) (w : string) (i : nat)
    (row : list R) :
  index english_words !! w = Some i →
  english_embeddings !! i = Some row →
  norm row ≠ 0%R →
  similarity_score english_words english_embeddings w w = Ok 1%R.
Proof.
  intros Hi Hrow Hnorm.
  unfold similarity_score, embedding, dict_get, list_get.
  rewrite Hi. simpl.
  rewrite (normalized_embeddings_lookup english_embeddings i row Hrow).
  simpl. unfold np_dot_vec. rewrite decide_True by reflexivity.
  f_equal. apply dotR_normalized. exact Hnorm.
Qed.

Lemma similarity_score_self_exact_witness :
  norm [4%R; 3%R] ≠ 0%R ∧
  similarity_score Example.words Example.embeddingsR "dog" "dog" = Ok 1%R.
Proof.
  assert (Hnorm : norm [4%R; 3%R] ≠ 0%R).
  { unfold norm, dot. simpl. apply Rgt_not_eq, sqrt_lt_R0. lra. }
  split; [exact Hnorm|].
  apply (similarity_score_self_exact Example.words Example.embeddingsR
           "dog" 1 [4%R; 3%R]).
  - vm_compute. reflexivity.
  - reflexivity.
  - exact Hnorm.
Defined.

(** In binary32 the scores of the scenario: "dog" with itself, and "cat"
    with "dog", the float nearest to 0.8. *)
Example similarity_score_scenario :
  similarity_score Example.words Example.embeddings "dog" "dog"
  = Ok (Example.f 1)
  ∧ similarity_score Example.words Example.embeddings "cat" "dog"
    = Ok (num_div (Example.f 4) (Example.f 5)).
Proof. split; vm_compute; reflexivity. Qed.

(** C8 fails as stated in binary32, whatever the tolerance.  The row
    [2^64, 2^64] has the norm +inf, which is not zero: the normalized row
    is [0, 0] and the score of the word with itself is 0.  The row
    [3 * 2^-75, 2^-75] has a finite norm other than zero, computed from
    squares that are rounded to multiples of [2^-149]: the score of the
    word with itself is the float after 1.25. *)
Lemma similarity_score_self_float32 :
  (index Example.extreme_words !! "huge"%string = Some 0
   ∧ F32.is_zero (norm Example.huge_row) = false
   ∧ similarity_score Example.extreme_words Example.extreme_embeddings
       "huge" "huge" = Ok F32.zero)
  ∧ (index Example.extreme_words !! "tiny"%string = Some 1
     ∧ F32.is_zero (norm Example.tiny_row) = false
     ∧ F32.is_finite (norm Example.tiny_row) = true
     ∧ similarity_score Example.extreme_words Example.extreme_embeddings
         "tiny" "tiny" = Ok (S754_finite false 10485761 (-23))
     ∧ F32.less (num_div (Example.f 5) (Example.f 4))
                (S754_finite false 10485761 (-23)) = true).
Proof. repeat split; vm_compute; reflexivity. Qed.

(** ** Normalization in binary32 *)

Lemma F32_div_by_zero (x z : F32.t) :
  F32.is_zero z = true → F32.is_finite (num_div x z) = false.
Proof. destruct x, z; simpl; intros Hz; try discriminate Hz; reflexivity. Qed.

Lemma F32_zero_div_zero (x z : F32.t) :
  F32.is_zero x = true → F32.is_zero z = true → num_div x z = F32.nan.
Proof.
  destruct x, z; simpl; intros Hx Hz;
    try discriminate Hx; try discriminate Hz; reflexivity.
Qed.

Lemma F32_zero_mul_zero (x y : F32.t) :
  F32.is_zero x = true → F32.is_zero y = true →
  F32.is_zero (num_mul x y) = true.
Proof.
  destruct x, y; simpl; intros Hx Hy;
    try discriminate Hx; try discriminate Hy; reflexivity.
Qed.

Lemma F32_zero_add_zero (x y : F32.t) :
  F32.is_zero x = true → F32.is_zero y = true →
  F32.is_zero (num_add x y) = true.
Proof.
  destruct x as [[]| | |], y as [[]| | |]; simpl; intros Hx Hy;
    try discriminate Hx; try discriminate Hy; reflexivity.
Qed.

Lemma F32_fold_add_zeros (l : list F32.t) : ∀ a,
  F32.is_zero a = true →
  Forall (λ x, F32.is_zero x = true) l →
  F32.is_zero (fold_left num_add l a) = true.
Proof.
  induction l as [|x l IH]; intros a Ha Hl; simpl; [exact Ha|].
  apply Forall_cons in Hl as [Hx Hl].
  apply IH; [apply F32_zero_add_zero; assumption | exact Hl].
Qed.

Lemma F32_zeros_div_zero (row : list F32.t) (z : F32.t) :
  F32.is_zero z = true →
  Forall (λ x, F32.is_zero x = true) row →
  (λ x, num_div x z) <$> row = replicate (length row) F32.nan.
Proof.
  intros Hz. induction 1 as [|x row Hx Hrow IH]; [reflexivity|].
  rewrite fmap_cons, IH, (F32_zero_div_zero x z Hx Hz). reflexivity.
Qed.

(** The norm of a row of zeros is a zero. *)
Lemma F32_norm_zeros (row : list F32.t) :
  Forall (λ x, F32.is_zero x = true) row → F32.is_zero (norm row) = true.
Proof.
  intros Hrow.
  assert (Hdot : F32.is_zero (dot row row) = true).
  { unfold dot. apply F32_fold_add_zeros; [reflexivity|].
    induction Hrow as [|x row Hx Hrow IH]; simpl; constructor;
      [apply F32_zero_mul_zero; assumption | exact IH]. }
  unfold norm. destruct (dot row row); try discriminate Hdot. reflexivity.
Qed.

(** C2, as the code has it.  Every row is divided by its norm, a norm of
    zero included.  No entry of a row whose norm is zero comes out a finite
    number, and a row of zeros, whose norm is zero, comes out a row of
    NaN. *)
Theorem normalize_zero_norm (english_embeddings : list (list F32.t))
    (i : nat) (row : list F32.t) :
  english_embeddings !! i = Some row →
  normalized_embeddings english_embeddings !! i
  = Some ((λ x, num_div x (norm row)) <$> row)
  ∧ (F32.is_zero (norm row) = true →
     Forall (λ y, F32.is_finite y = false)
            ((λ x, num_div x (norm row)) <$> row))
  ∧ (Forall (λ x, F32.is_zero x = true) row →
     F32.is_zero (norm row) = true
     ∧ normalized_embeddings english_embeddings !! i
       = Some (replicate (length row) F32.nan)).
Proof.
  intros Hrow.
  pose proof (normalized_embeddings_lookup english_embeddings i row Hrow)
    as Hnorm.
  split; [exact Hnorm|]. split.
  - intros Hz. apply Forall_fmap, Forall_forall. intros x _.
    apply F32_div_by_zero. exact Hz.
  - intros Hzeros. pose proof (F32_norm_zeros row Hzeros) as Hz.
    split; [exact Hz|]. rewrite Hnorm. f_equal.
    apply F32_zeros_div_zero; assumption.
Qed.

Lemma normalize_zero_norm_witness :
  Example.zeros !! 0 = Some [Example.f 0; Example.f 0; Example.f 0] ∧
  normalized_embeddings Example.zeros !! 0
  = Some (replicate 3 F32.nan).
Proof.
  split; [reflexivity|].
  refine (proj2 (proj2 (proj2 (normalize_zero_norm Example.zeros 0
            [Example.f 0; Example.f 0; Example.f 0] _)) _)).
  - reflexivity.
  - repeat constructor.
Defined.

(** C2 fails as stated: the row [0, 0, 0] is normalized to three NaN. *)
Lemma normalize_zero_row_nan :
  normalized_embeddings Example.zeros = [[F32.nan; F32.nan; F32.nan]]
  ∧ normalized_embeddings Example.zeros ≠ Example.zeros.
Proof.
  split; [vm_compute; reflexivity|].
  intros Heq. vm_compute in Heq. discriminate Heq.
Qed.

(** * More of the notebooks *)

(** ** Strings *)

Lemma chars_of_chars (l : list ascii) : Str.chars (Str.of_chars l) = l.
Proof. apply String.list_ascii_of_string_of_list_ascii. Qed.

Lemma of_chars_chars (s : string) : Str.of_chars (Str.chars s) = s.
Proof. apply String.string_of_list_ascii_of_string. Qed.

Lemma chars_inj (s1 s2 : string) : Str.chars s1 = Str.chars s2 → s1 = s2.
Proof.
  intros Heq. rewrite <- (of_chars_chars s1), <- (of_chars_chars s2), Heq.
  reflexivity.
Qed.

Lemma lower_char_not_upper (c : ascii) : Str.is_upper (Str.lower_char c) = false.
Proof. destruct c as [[] [] [] [] [] [] [] []]; vm_compute; reflexivity. Qed.

Lemma lower_char_punct (c : ascii) :
  Str.is_punct (Str.lower_char c) = Str.is_punct c.
Proof. destruct c as [[] [] [] [] [] [] [] []]; vm_compute; reflexivity. Qed.

Lemma lower_char_idempotent (c : ascii) :
  Str.lower_char (Str.lower_char c) = Str.lower_char c.
Proof. destruct c as [[] [] [] [] [] [] [] []]; vm_compute; reflexivity. Qed.

(** The words of a split are runs of the characters read, none of them a
    whitespace and none of them empty. *)
Lemma split_go_words (Q : ascii → Prop) (s : list ascii) : ∀ cur,
  Forall (λ c, Q c ∧ Str.is_space c = false) cur →
  Forall Q s →
  Forall (λ w, w ≠ ""%string
               ∧ Forall (λ c, Q c ∧ Str.is_space c = false) (Str.chars w))
         (Str.split_go cur s).
Proof.
  assert (Hword : ∀ c cur,
    Forall (λ c, Q c ∧ Str.is_space c = false) (c :: cur) →
    Str.of_chars (reverse (c :: cur)) ≠ ""%string
    ∧ Forall (λ c, Q c ∧ Str.is_space c = false)
             (Str.chars (Str.of_chars (reverse (c :: cur))))).
  { intros c cur Hcur. split.
    - intros Hempty. apply (f_equal Str.chars) in Hempty.
      rewrite chars_of_chars, reverse_cons in Hempty.
      destruct (reverse cur); discriminate Hempty.
    - rewrite chars_of_chars. apply Forall_reverse. exact Hcur. }
  induction s as [|c s IH]; intros cur Hcur Hs; simpl.
  - destruct cur as [|c' cur]; constructor; [apply Hword, Hcur | constructor].
  - apply Forall_cons in Hs as [Hc Hs].
    destruct (Str.is_space c) eqn:Hsp.
    + destruct cur as [|c' cur]; [apply IH; [constructor | exact Hs]|].
      constructor; [apply Hword, Hcur | apply IH; [constructor | exact Hs]].
    + apply IH; [|exact Hs]. constructor; [split; assumption | exact Hcur].
Qed.

(** Splitting loses the whitespace and nothing else. *)
Lemma split_go_concat (s : list ascii) : ∀ cur,
  concat (Str.chars <$> Str.split_go cur s)
  = reverse cur ++ filter (λ c, Str.is_space c = false) s.
Proof.
  induction s as [|c s IH]; intros cur; simpl.
  - destruct cur as [|c' cur]; simpl; [reflexivity|].
    rewrite chars_of_chars, !app_nil_r. reflexivity.
  - rewrite filter_cons. destruct (Str.is_space c) eqn:Hsp.
    + rewrite decide_False by discriminate.
      destruct cur as [|c' cur]; simpl; [apply IH|].
      rewrite chars_of_chars, IH. reflexivity.
    + rewrite decide_True by reflexivity.
      rewrite IH, reverse_cons, <- app_assoc. reflexivity.
Qed.

Lemma chars_lower_remove_punct (s : string) :
  Str.chars (Str.lower (Str.remove_punct s))
  = Str.lower_char <$> filter (λ c, Str.is_punct c = false) (Str.chars s).
Proof.
  unfold Str.lower, Str.remove_punct. rewrite !chars_of_chars. reflexivity.
Qed.

(** X1: the words of a review.  For a line of Latin-1 characters (code
    points below 256), every word that [convert_line_to_example] looks up
    is non-empty and holds no whitespace, no punctuation and no capital
    letter. *)
Theorem line_words_clean (line : string) :
  Forall (λ w, w ≠ ""%string
               ∧ Forall (λ c, Str.is_space c = false
                              ∧ Str.is_punct c = false
                              ∧ Str.is_upper c = false) (Str.chars w))
         (Reviews.line_words line).
Proof.
  unfold Reviews.line_words, Str.split.
  rewrite chars_lower_remove_punct.
  eapply Forall_impl.
  - apply (split_go_words
             (λ c, Str.is_punct c = false ∧ Str.is_upper c = false));
      [constructor|].
    apply Forall_fmap, Forall_forall. intros c Hc.
    apply list_elem_of_filter in Hc as [Hc _]. simpl. split.
    + rewrite lower_char_punct. exact Hc.
    + apply lower_char_not_upper.
  - simpl. intros w [Hne Hw]. split; [exact Hne|].
    eapply Forall_impl; [exact Hw|]. simpl. tauto.
Qed.

(** ** Reviews *)

Lemma mapM_result_Ok {X Y : Type} (f : X → result Y) (l : list X) : ∀ ys,
  mapM f l = Ok ys ↔ Forall2 (λ x y, f x = Ok y) l ys.
Proof.
  induction l as [|x l IH]; intros ys; simpl.
  - split; [intros [= <-]; constructor | intros Hys; inversion Hys; reflexivity].
  - destruct (f x) as [y|e] eqn:Hx; simpl.
    + destruct (mapM f l) as [ys'|e] eqn:Hl; simpl.
      * split.
        -- intros [= <-]. constructor; [exact Hx | apply IH; reflexivity].
        -- intros Hys. inversion Hys as [|? y' ? ys'' Hy' Hrest]; subst.
           apply IH in Hrest. injection Hrest as ->.
           rewrite Hx in Hy'. injection Hy' as ->. reflexivity.
      * split; [discriminate|]. intros Hys.
        inversion Hys as [|? y' ? ys'' Hy' Hrest]; subst.
        apply IH in Hrest. congruence.
    + split; [discriminate|]. intros Hys. inversion Hys; subst. congruence.
Qed.

Lemma mapM_result_returns {X Y : Type} (f : X → result Y) (l : list X) :
  returns (mapM f l) ↔ Forall (λ x, returns (f x)) l.
Proof.
  induction l as [|x l IH]; simpl.
  - split; [constructor | exists []; reflexivity].
  - rewrite Forall_cons, <- IH. unfold returns. split.
    + intros [ys Hys]. destruct (f x) as [y|e]; [|discriminate Hys].
      simpl in Hys. destruct (mapM f l) as [ys'|e]; [|discriminate Hys].
      split; eexists; reflexivity.
    + intros [[y ->] [ys ->]]. eexists. reflexivity.
Qed.

Section ReviewFacts.
Context {A : Type} `{Numeric A} `{Count A}.
Variable D : nat.
Variable english_words : list string.
Variable english_embeddings : list (list A).

Lemma index_is_Some (w : string) :
  is_Some (index english_words !! w) ↔ w ∈ english_words.
Proof.
  rewrite <- not_eq_None_Some, index_None.
  split; [apply dec_stable | tauto].
Qed.

(** The comprehension looks up the words of the vocabulary, in order, and
    passes over the others. *)
Lemma known_embeddings_filter (words : list string) :
  Reviews.known_embeddings english_words english_embeddings words
  = mapM (embedding english_words english_embeddings)
         (filter (λ w, w ∈ english_words) words).
Proof.
  induction words as [|w words IH]; simpl; [reflexivity|].
  rewrite filter_cons.
  destruct (decide (is_Some (index english_words !! w))) as [Hw|Hw];
    rewrite index_is_Some in Hw.
  - rewrite decide_True by exact Hw. simpl. rewrite IH. reflexivity.
  - rewrite decide_False by exact Hw. exact IH.
Qed.

(** In a well-formed store a word of the vocabulary has a row, of [D]
    columns. *)
Lemma embedding_known (w : string) :
  well_formed D english_words english_embeddings →
  w ∈ english_words →
  ∃ v, embedding english_words english_embeddings w = Ok v ∧ length v = D.
Proof.
  intros [Hlen Hcols] Hw. apply index_is_Some in Hw as [i Hi].
  pose proof (index_lt _ _ _ Hi) as Hlt. rewrite Hlen in Hlt.
  apply lookup_lt_is_Some_2 in Hlt as [row Hrow].
  exists ((λ x, num_div x (norm row)) <$> row). split.
  - unfold embedding, dict_get, list_get. rewrite Hi. simpl.
    rewrite (normalized_embeddings_lookup _ _ _ Hrow). reflexivity.
  - rewrite length_fmap. rewrite Forall_forall in Hcols. apply Hcols.
    eapply list_elem_of_lookup_2. exact Hrow.
Qed.

Lemma known_embeddings_Ok (words : list string) :
  well_formed D english_words english_embeddings →
  ∃ es,
    Reviews.known_embeddings english_words english_embeddings words = Ok es
    ∧ length es = length (filter (λ w, w ∈ english_words) words)
    ∧ Forall (λ e, length e = D) es.
Proof.
  intros Hwf. rewrite known_embeddings_filter.
  induction words as [|w words (es & Hes & Hlen & Hcols)]; simpl.
  - exists []. repeat split; constructor.
  - rewrite filter_cons. destruct (decide (w ∈ english_words)) as [Hw|Hw].
    + destruct (embedding_known w Hwf Hw) as (v & Hv & HvD).
      exists (v :: es). simpl. rewrite Hv, Hes. simpl.
      repeat split; [f_equal; exact Hlen | constructor; assumption].
    + exists es. repeat split; assumption.
Qed.

Lemma length_fold_vadd (rows : list (list A)) : ∀ a,
  length a = D → Forall (λ e, length e = D) rows →
  length (fold_left vadd rows a) = D.
Proof.
  induction rows as [|r rows IH]; intros a Ha Hrows; simpl; [exact Ha|].
  apply Forall_cons in Hrows as [Hr Hrows]. apply IH; [|exact Hrows].
  unfold vadd. rewrite length_zip_with. lia.
Qed.

End ReviewFacts.

(** X2: what becomes of a line of Latin-1 characters (code points below
    256).  An empty line raises [IndexError]; a line that does not start
    with one of the digits 0 to 9 raises [ValueError]; so does a line none
    of whose words is in the vocabulary ([np.vstack] of no array).  Any
    other line gives an example: its label is the digit, whatever digit it
    is, and its [x] has the [D] columns of the embeddings. *)
Theorem convert_line_to_example_cases {A : Type} `{Numeric A} `{Count A}
    (D : nat) (english_words : list string)
    (english_embeddings : list (list A)) (line : string) :
  well_formed D english_words english_embeddings →
  (Str.chars line = [] →
   Reviews.convert_line_to_example english_words english_embeddings line
   = Raise IndexError)
  ∧ (∀ c rest, Str.chars line = c :: rest → Str.is_digit c = false →
     Reviews.convert_line_to_example english_words english_embeddings line
     = Raise ValueError)
  ∧ (∀ c rest, Str.chars line = c :: rest → Str.is_digit c = true →
     Forall (λ w, w ∉ english_words) (Reviews.line_words line) →
     Reviews.convert_line_to_example english_words english_embeddings line
     = Raise ValueError)
  ∧ (∀ c rest, Str.chars line = c :: rest → Str.is_digit c = true →
     Exists (λ w, w ∈ english_words) (Reviews.line_words line) →
     ∃ ex,
       Reviews.convert_line_to_example english_words english_embeddings line
       = Ok ex
       ∧ Reviews.y ex = (Z.of_N (Str.code c) - 48)%Z
       ∧ (0 ≤ Reviews.y ex ≤ 9)%Z
       ∧ length (Reviews.x ex) = D).
Proof.
  intros Hwf.
  destruct (known_embeddings_Ok D english_words english_embeddings
              (Reviews.line_words line) Hwf) as (es & Hes & Hlen & Hcols).
  unfold Reviews.convert_line_to_example, Str.getitem, Str.int.
  split; [|split; [|split]].
  - intros ->. reflexivity.
  - intros c rest -> Hc. simpl. rewrite Hc. reflexivity.
  - intros c rest -> Hc Hnone. simpl. rewrite Hc. simpl. rewrite Hes. simpl.
    assert (Hnil : filter (λ w, w ∈ english_words) (Reviews.line_words line)
                   = []).
    { destruct (filter (λ w, w ∈ english_words) (Reviews.line_words line))
        as [|w ws] eqn:Hf; [reflexivity|].
      assert (Hw : w ∈ filter (λ w, w ∈ english_words)
                         (Reviews.line_words line))
        by (rewrite Hf; apply list_elem_of_here).
      apply list_elem_of_filter in Hw as [Hknown Hw].
      rewrite Forall_forall in Hnone. destruct (Hnone w Hw Hknown). }
    rewrite Hnil in Hlen. destruct es; [reflexivity | discriminate Hlen].
  - intros c rest -> Hc Hsome. simpl. rewrite Hc. simpl. rewrite Hes. simpl.
    destruct es as [|a others].
    + exfalso. apply Exists_exists in Hsome as (w & Hw & Hknown).
      assert (Hin : w ∈ filter (λ w, w ∈ english_words)
                          (Reviews.line_words line)).
      { apply list_elem_of_filter. split; assumption. }
      destruct (filter (λ w, w ∈ english_words) (Reviews.line_words line));
        [inversion Hin | discriminate Hlen].
    + apply Forall_cons in Hcols as [Ha Hothers]. simpl.
      rewrite decide_True.
      * cbn [mbind result_bind]. eexists. split; [reflexivity|].
        cbn [Reviews.x Reviews.y]. split; [reflexivity|]. split.
        -- unfold Str.is_digit, Str.between in Hc.
           apply andb_true_iff in Hc as [Hlo Hhi].
           apply N.leb_le in Hlo, Hhi. lia.
        -- unfold Reviews.np_mean_axis0. rewrite length_fmap.
           apply length_fold_vadd; assumption.
      * eapply Forall_impl; [exact Hothers|]. simpl. congruence.
Qed.

Lemma sample_well_formed : well_formed 2 Sample.words Sample.embeddings.
Proof. split; [reflexivity | repeat constructor]. Qed.

Lemma convert_line_to_example_cases_witness :
  Exists (λ w, w ∈ Sample.words) (Reviews.line_words Sample.good_line) ∧
  ∃ ex,
    Reviews.convert_line_to_example Sample.words Sample.embeddings
      Sample.good_line = Ok ex
    ∧ Reviews.y ex = 1%Z
    ∧ length (Reviews.x ex) = 2.
Proof.
  assert (Hknown : Exists (λ w, w ∈ Sample.words)
                     (Reviews.line_words Sample.good_line)).
  { apply Exists_exists. exists "great"%string. split.
    - vm_compute. apply list_elem_of_further, list_elem_of_here.
    - apply list_elem_of_here. }
  split; [exact Hknown|].
  destruct (proj2 (proj2 (proj2 (convert_line_to_example_cases 2
              Sample.words Sample.embeddings Sample.good_line
              sample_well_formed)))
              "1"%char (Sample.tab :: Str.chars "A GREAT, great movie!")
              eq_refl eq_refl Hknown)
    as (ex & Hex & Hy & _ & Hx).
  exists ex. split; [exact Hex|]. split; [exact Hy | exact Hx].
Defined.

(** X3: words outside the vocabulary do not count.  Two lines with the same
    first character and the same words of the vocabulary, in the same
    order, are converted alike, to the same example or to the same
    exception. *)
Theorem convert_line_ignores_unknown_words {A : Type} `{Numeric A} `{Count A}
    (english_words : list string) (english_embeddings : list (list A))
    (line1 line2 : string) :
  Str.getitem line1 0 = Str.getitem line2 0 →
  filter (λ w, w ∈ english_words) (Reviews.line_words line1)
  = filter (λ w, w ∈ english_words) (Reviews.line_words line2) →
  Reviews.convert_line_to_example english_words english_embeddings line1
  = Reviews.convert_line_to_example english_words english_embeddings line2.
Proof.
  intros Hfirst Hknown. unfold Reviews.convert_line_to_example.
  rewrite !known_embeddings_filter, Hfirst, Hknown. reflexivity.
Qed.

Lemma convert_line_ignores_unknown_words_witness :
  Reviews.line_words Sample.good_line
  = ["a"; "great"; "great"; "movie"]%string ∧
  Reviews.line_words Sample.plain_line = ["great"; "great"; "movie"]%string ∧
  Reviews.convert_line_to_example Sample.words Sample.embeddings
    Sample.good_line
  = Reviews.convert_line_to_example Sample.words Sample.embeddings
      Sample.plain_line.
Proof.
  split; [vm_compute; reflexivity|]. split; [vm_compute; reflexivity|].
  apply convert_line_ignores_unknown_words.
  - reflexivity.
  - vm_compute. reflexivity.
Defined.

Lemma filter_punct_lower (l : list ascii) :
  filter (λ c, Str.is_punct c = false) (Str.lower_char <$> l)
  = Str.lower_char <$> filter (λ c, Str.is_punct c = false) l.
Proof.
  induction l as [|c l IH]; [reflexivity|].
  rewrite fmap_cons, !filter_cons, lower_char_punct, IH.
  destruct (decide (Str.is_punct c = false)); reflexivity.
Qed.

Lemma filter_punct_idempotent (l : list ascii) :
  filter (λ c, Str.is_punct c = false) (filter (λ c, Str.is_punct c = false) l)
  = filter (λ c, Str.is_punct c = false) l.
Proof.
  induction l as [|c l IH]; [reflexivity|].
  rewrite filter_cons.
  destruct (decide (Str.is_punct c = false)) as [Hc|Hc]; [|exact IH].
  rewrite filter_cons, decide_True by exact Hc. rewrite IH. reflexivity.
Qed.

(** Lowering and removing punctuation a second time changes nothing. *)
Lemma lower_remove_punct_idempotent (text : string) :
  Str.lower (Str.remove_punct (Str.lower (Str.remove_punct text)))
  = Str.lower (Str.remove_punct text).
Proof.
  apply chars_inj. rewrite !chars_lower_remove_punct.
  rewrite filter_punct_lower, filter_punct_idempotent, <- list_fmap_compose.
  apply list_fmap_ext. intros i c _. apply lower_char_idempotent.
Qed.

Lemma line_words_text (c t : ascii) (text : string) :
  Reviews.line_words (String c (String t text))
  = Str.split (Str.lower (Str.remove_punct text)).
Proof.
  unfold Reviews.line_words, Str.slice_from.
  change (drop 2 (Str.chars (String c (String t text))))
    with (Str.chars text).
  rewrite of_chars_chars. reflexivity.
Qed.

(** X4: in a line of Latin-1 characters (code points below 256) the second
    character is skipped whatever it is, and the case and the punctuation
    of the text do not matter: a line and the line of its lowered text
    without punctuation, after any separator, are converted alike. *)
Theorem convert_line_insensitive {A : Type} `{Numeric A} `{Count A}
    (english_words : list string) (english_embeddings : list (list A))
    (c t1 t2 : ascii) (text : string) :
  Reviews.line_words (String c (String t1 text))
  = Reviews.line_words
      (String c (String t2 (Str.lower (Str.remove_punct text))))
  ∧ Reviews.convert_line_to_example english_words english_embeddings
      (String c (String t1 text))
    = Reviews.convert_line_to_example english_words english_embeddings
        (String c (String t2 (Str.lower (Str.remove_punct text)))).
Proof.
  assert (Hwords :
    Reviews.line_words (String c (String t1 text))
    = Reviews.line_words
        (String c (String t2 (Str.lower (Str.remove_punct text))))).
  { rewrite !line_words_text, lower_remove_punct_idempotent. reflexivity. }
  split; [exact Hwords|].
  unfold Reviews.convert_line_to_example. rewrite Hwords. reflexivity.
Qed.

Lemma filter_nonempty_Exists {T : Type} (P : T → Prop)
    `{∀ x, Decision (P x)} (l : list T) :
  filter P l ≠ [] ↔ Exists P l.
Proof.
  rewrite Exists_exists. split.
  - intros Hne. destruct (filter P l) as [|x l'] eqn:Hf; [congruence|].
    assert (Hx : x ∈ filter P l) by (rewrite Hf; apply list_elem_of_here).
    apply list_elem_of_filter in Hx as [HP Hx]. exists x. split; assumption.
  - intros (x & Hx & HP) Hf.
    assert (Hin : x ∈ filter P l) by (apply list_elem_of_filter; split; assumption).
    rewrite Hf in Hin. inversion Hin.
Qed.

(** A line is converted exactly when it starts with a digit and has a word
    of the vocabulary. *)
Lemma convert_line_returns {A : Type} `{Numeric A} `{Count A}
    (D : nat) (english_words : list string)
    (english_embeddings : list (list A)) (line : string) :
  well_formed D english_words english_embeddings →
  returns (Reviews.convert_line_to_example english_words english_embeddings
             line)
  ↔ ∃ c rest, Str.chars line = c :: rest ∧ Str.is_digit c = true
              ∧ Exists (λ w, w ∈ english_words) (Reviews.line_words line).
Proof.
  intros Hwf.
  destruct (known_embeddings_Ok D english_words english_embeddings
              (Reviews.line_words line) Hwf) as (es & Hes & Hlen & Hcols).
  pose proof (filter_nonempty_Exists (λ w, w ∈ english_words)
                (Reviews.line_words line)) as Hknown.
  unfold Reviews.convert_line_to_example, Str.getitem, Str.int, returns.
  destruct (Str.chars line) as [|c rest]; simpl.
  - split; [intros [ex Hex]; discriminate Hex|].
    intros (c & rest & Hline & _). discriminate Hline.
  - destruct (Str.is_digit c) eqn:Hc; simpl.
    + rewrite Hes. simpl. destruct es as [|a others]; simpl.
      * split; [intros [ex Hex]; discriminate Hex|].
        intros (c' & rest' & _ & _ & Hne). exfalso.
        apply Hknown in Hne. apply Hne.
        apply nil_length_inv. symmetry. exact Hlen.
      * apply Forall_cons in Hcols as [Ha Hothers].
        rewrite decide_True
          by (eapply Forall_impl; [exact Hothers | simpl; congruence]).
        split; [|intros _; eexists; reflexivity].
        intros _. exists c, rest. repeat split; [exact Hc|].
        apply Hknown. intros Hnil. rewrite Hnil in Hlen. discriminate Hlen.
    + split; [intros [ex Hex]; discriminate Hex|].
      intros (c' & rest' & [= <- <-] & Hc' & _). congruence.
Qed.

(** X5: loading a file of Latin-1 characters (code points below 256).  The
    dataset is built exactly when every line starts with one of the digits
    0 to 9 and has a word of the vocabulary, one bad line (an empty one,
    say) makes the whole comprehension raise; when it is built it has one
    example for each line, in the order of the lines. *)
Theorem dataset_built {A : Type} `{Numeric A} `{Count A}
    (D : nat) (english_words : list string)
    (english_embeddings : list (list A)) (lines : list string) :
  well_formed D english_words english_embeddings →
  (returns (Reviews.dataset english_words english_embeddings lines)
   ↔ Forall (λ line,
        ∃ c rest, Str.chars line = c :: rest ∧ Str.is_digit c = true
                  ∧ Exists (λ w, w ∈ english_words)
                           (Reviews.line_words line)) lines)
  ∧ ∀ examples,
      Reviews.dataset english_words english_embeddings lines = Ok examples →
      length examples = length lines
      ∧ ∀ k line, lines !! k = Some line →
          ∃ ex, examples !! k = Some ex
                ∧ Reviews.convert_line_to_example english_words
                    english_embeddings line = Ok ex.
Proof.
  intros Hwf. unfold Reviews.dataset. split.
  - rewrite mapM_result_returns. apply Forall_iff. intros line.
    apply (convert_line_returns D). exact Hwf.
  - intros examples Hex. apply mapM_result_Ok in Hex. split.
    + symmetry. eapply Forall2_length. exact Hex.
    + intros k line Hline.
      destruct (Forall2_lookup_l _ _ _ _ _ Hex Hline) as (ex & Hk & Hconv).
      exists ex. split; assumption.
Qed.

Lemma dataset_built_witness :
  returns (Reviews.dataset Sample.words Sample.embeddings
             [Sample.good_line; Sample.plain_line]) ∧
  ¬ returns (Reviews.dataset Sample.words Sample.embeddings
               [Sample.good_line; Sample.unknown_line]).
Proof.
  split.
  - apply (proj1 (dataset_built 2 Sample.words Sample.embeddings
                    [Sample.good_line; Sample.plain_line]
                    sample_well_formed)).
    repeat constructor.
    + exists "1"%char, (Sample.tab :: Str.chars "A GREAT, great movie!").
      repeat split. apply Exists_exists. exists "great"%string. split.
      * vm_compute. apply list_elem_of_further, list_elem_of_here.
      * apply list_elem_of_here.
    + exists "1"%char, (Str.chars " great Great movie").
      repeat split. apply Exists_exists. exists "great"%string. split.
      * vm_compute. apply list_elem_of_here.
      * apply list_elem_of_here.
  - intros [ds Hds]. vm_compute in Hds. discriminate Hds.
Defined.

(** ** The English vocabulary *)

Lemma chars_append (s1 s2 : string) :
  Str.chars (s1 +:+ s2) = Str.chars s1 ++ Str.chars s2.
Proof.
  unfold Str.chars.
  induction s1 as [|c s1 IH]; simpl; [reflexivity|].
  rewrite IH. reflexivity.
Qed.

(** A string starts with [p] exactly when it is [p] and a rest, and the
    rest is the slice from the length of [p]. *)
Lemma startswith_append (p s : string) :
  Str.startswith p s = true ↔
  s = p +:+ Str.slice_from (length (Str.chars p)) s.
Proof.
  unfold Str.startswith, Str.slice_from. rewrite bool_decide_eq_true. split.
  - intros Htake. apply chars_inj.
    rewrite chars_append, chars_of_chars, <- Htake at 1.
    rewrite take_drop. reflexivity.
  - intros Hs. apply (f_equal Str.chars) in Hs.
    rewrite chars_append, chars_of_chars in Hs. rewrite Hs at 1.
    rewrite take_app_length. reflexivity.
Qed.

Lemma slice_from_append (p w : string) :
  Str.slice_from (length (Str.chars p)) (p +:+ w) = w.
Proof.
  unfold Str.slice_from. rewrite chars_append, drop_app_length.
  apply of_chars_chars.
Qed.

Lemma startswith_append_intro (p w : string) :
  Str.startswith p (p +:+ w) = true.
Proof.
  apply startswith_append. rewrite slice_from_append. reflexivity.
Qed.

Lemma enumerate_from_elem {T : Type} (l : list T) : ∀ k i x,
  (i, x) ∈ enumerate_from k l ↔ k ≤ i ∧ l !! (i - k) = Some x.
Proof.
  induction l as [|y l IH]; intros k i x; simpl.
  - split; [intros Hin; inversion Hin | intros [_ Hx]; discriminate Hx].
  - rewrite elem_of_cons, IH. split.
    + intros [[= -> ->] | [Hle Hx]].
      * split; [lia|]. replace (k - k) with 0 by lia. reflexivity.
      * split; [lia|]. replace (i - k) with (S (i - S k)) by lia. exact Hx.
    + intros [Hle Hx]. destruct (decide (i = k)) as [->|Hne].
      * left. replace (k - k) with 0 in Hx by lia. simpl in Hx. congruence.
      * right. split; [lia|].
        replace (i - k) with (S (i - S k)) in Hx by lia. exact Hx.
Qed.

Lemma enumerate_from_filter_snd {T : Type} (P : T → Prop)
    `{∀ x, Decision (P x)} (l : list T) : ∀ k,
  snd <$> filter (λ iw, P iw.2) (enumerate_from k l) = filter P l.
Proof.
  induction l as [|y l IH]; intros k; simpl; [reflexivity|].
  rewrite !filter_cons. simpl.
  destruct (decide (P y)); simpl; rewrite IH; reflexivity.
Qed.

Lemma enumerate_from_filter_sorted {T : Type} (P : nat * T → Prop)
    `{∀ x, Decision (P x)} (l : list T) : ∀ k,
  Forall (λ i, k ≤ i) (fst <$> filter P (enumerate_from k l))
  ∧ StronglySorted lt (fst <$> filter P (enumerate_from k l)).
Proof.
  induction l as [|y l IH]; intros k; simpl.
  - split; constructor.
  - destruct (IH (S k)) as [Hge Hsorted]. rewrite filter_cons.
    destruct (decide (P (k, y))); simpl.
    + split.
      * constructor; [lia|]. eapply Forall_impl; [exact Hge|]. simpl. lia.
      * constructor; [exact Hsorted|].
        eapply Forall_impl; [exact Hge|]. simpl. lia.
    + split; [|exact Hsorted].
      eapply Forall_impl; [exact Hge|]. simpl. lia.
Qed.

Lemma english_words_filter (all_words : list string) :
  Vocabulary.english_words all_words
  = (λ iw, Str.slice_from 6 iw.2)
    <$> filter (λ iw, Str.startswith Vocabulary.en iw.2 = true)
               (enumerate all_words).
Proof.
  unfold Vocabulary.english_words, enumerate.
  rewrite <- (enumerate_from_filter_snd
                (λ w, Str.startswith Vocabulary.en w = true) all_words 0).
  rewrite <- list_fmap_compose. reflexivity.
Qed.

(** The [k]-th English word and the [k]-th index come from one word of
    [all_words]. *)
Lemma english_word_lookup (all_words : list string) (k i : nat) :
  Vocabulary.english_word_indices all_words !! k = Some i →
  ∃ w, Vocabulary.english_words all_words !! k = Some w
       ∧ all_words !! i = Some (Vocabulary.en +:+ w).
Proof.
  rewrite english_words_filter. unfold Vocabulary.english_word_indices.
  rewrite !list_lookup_fmap. intros Hk.
  destruct (filter _ (enumerate all_words) !! k) as [[i' w0]|] eqn:Hf;
    [|discriminate Hk].
  injection Hk as ->. simpl.
  apply list_elem_of_lookup_2, list_elem_of_filter in Hf as [Hen Hin].
  apply enumerate_from_elem in Hin as [_ Hin].
  rewrite Nat.sub_0_r in Hin. simpl in Hen.
  exists (Str.slice_from 6 w0). split; [reflexivity|].
  apply startswith_append in Hen. rewrite Hin. f_equal. exact Hen.
Qed.

(** X6: the English store is aligned.  When every word of the file has a
    row, the selection of the rows returns, with one row for each English
    word: the [k]-th English word is the word at the [k]-th index without
    its prefix, the [k]-th row is the row at that index, and the indices
    ascend.  If the rows of the file have [D] columns the store is well
    formed. *)
Theorem english_store_aligned {A : Type} (all_words : list string)
    (all_embeddings : list (list A)) :
  length all_words ≤ length all_embeddings →
  ∃ E,
    Vocabulary.english_embeddings all_words all_embeddings = Ok E
    ∧ length E = length (Vocabulary.english_words all_words)
    ∧ StronglySorted lt (Vocabulary.english_word_indices all_words)
    ∧ (∀ k i, Vocabulary.english_word_indices all_words !! k = Some i →
         ∃ w row,
           Vocabulary.english_words all_words !! k = Some w
           ∧ all_words !! i = Some (Vocabulary.en +:+ w)
           ∧ E !! k = Some row
           ∧ all_embeddings !! i = Some row)
    ∧ (∀ D, Forall (λ row, length row = D) all_embeddings →
         well_formed D (Vocabulary.english_words all_words) E).
Proof.
  intros Hrows.
  assert (Hreturns :
    returns (Vocabulary.english_embeddings all_words all_embeddings)).
  { unfold Vocabulary.english_embeddings. apply mapM_result_returns.
    apply Forall_forall. intros i Hi.
    apply list_elem_of_lookup_1 in Hi as [k Hk].
    apply english_word_lookup in Hk as (w & _ & Hw).
    apply lookup_lt_Some in Hw.
    destruct (lookup_lt_is_Some_2 all_embeddings i) as [row Hrow]; [lia|].
    exists row. unfold list_get. rewrite Hrow. reflexivity. }
  destruct Hreturns as [E HE]. exists E. split; [exact HE|].
  unfold Vocabulary.english_embeddings in HE. apply mapM_result_Ok in HE.
  assert (Hlen : length E = length (Vocabulary.english_words all_words)).
  { rewrite <- (Forall2_length _ _ _ HE), english_words_filter.
    unfold Vocabulary.english_word_indices. rewrite !length_fmap.
    reflexivity. }
  assert (Heach : ∀ k i,
    Vocabulary.english_word_indices all_words !! k = Some i →
    ∃ w row,
      Vocabulary.english_words all_words !! k = Some w
      ∧ all_words !! i = Some (Vocabulary.en +:+ w)
      ∧ E !! k = Some row ∧ all_embeddings !! i = Some row).
  { intros k i Hk.
    destruct (english_word_lookup all_words k i Hk) as (w & Hw & Hi).
    destruct (Forall2_lookup_l _ _ _ _ _ HE Hk) as (row & Hrow & Hget).
    exists w, row. repeat split; try assumption.
    unfold list_get in Hget.
    destruct (all_embeddings !! i); [congruence | discriminate Hget]. }
  split; [exact Hlen|]. split; [|split; [exact Heach|]].
  - apply (enumerate_from_filter_sorted
             (λ iw, Str.startswith Vocabulary.en iw.2 = true) all_words 0).
  - intros D Hcols. split; [symmetry; exact Hlen|].
    apply Forall_forall. intros row Hrow.
    apply list_elem_of_lookup_1 in Hrow as [k Hk].
    destruct (lookup_lt_is_Some_2 (Vocabulary.english_word_indices all_words) k)
      as [i Hi].
    { rewrite (Forall2_length _ _ _ HE). eapply lookup_lt_Some. exact Hk. }
    destruct (Heach k i Hi) as (w & row' & _ & _ & Hk' & Hrow').
    rewrite Forall_forall in Hcols. apply Hcols.
    eapply list_elem_of_lookup_2. rewrite Hrow'. congruence.
Qed.

Lemma english_store_aligned_witness :
  Vocabulary.english_words Sample.all_words = ["cat"; "dog"; "car"]%string ∧
  Vocabulary.english_word_indices Sample.all_words = [1; 2; 4] ∧
  ∃ E,
    Vocabulary.english_embeddings Sample.all_words Sample.all_embeddings
    = Ok E
    ∧ well_formed 2 (Vocabulary.english_words Sample.all_words) E.
Proof.
  split; [vm_compute; reflexivity|]. split; [vm_compute; reflexivity|].
  destruct (english_store_aligned Sample.all_words Sample.all_embeddings)
    as (E & HE & _ & _ & _ & Hwf); [simpl; lia|].
  exists E. split; [exact HE|]. apply Hwf. repeat constructor.
Defined.

(** Without a row for one of the English words, the selection raises
    [IndexError]. *)
Example english_embeddings_short :
  Vocabulary.english_embeddings Sample.all_words
    (take 4 Sample.all_embeddings) = Raise IndexError.
Proof. vm_compute. reflexivity. Qed.

(** X7: which words are English words.  A string is among the English words
    exactly when, with the prefix "/c/en/" before it, it is among the words
    of the file. *)
Theorem english_words_elem (all_words : list string) (w : string) :
  w ∈ Vocabulary.english_words all_words
  ↔ (Vocabulary.en +:+ w) ∈ all_words.
Proof.
  unfold Vocabulary.english_words. rewrite list_elem_of_fmap. split.
  - intros (w0 & -> & Hw0). apply list_elem_of_filter in Hw0 as [Hen Hw0].
    apply startswith_append in Hen. simpl in Hen. rewrite <- Hen. exact Hw0.
  - intros Hw. exists (Vocabulary.en +:+ w). split.
    + symmetry. apply (slice_from_append Vocabulary.en).
    + apply list_elem_of_filter. split; [|exact Hw].
      apply startswith_append_intro.
Qed.

(** Cutting the prefix off is injective on the words that have it. *)
Lemma slice_from_en_inj (w1 w2 : string) :
  Str.startswith Vocabulary.en w1 = true →
  Str.startswith Vocabulary.en w2 = true →
  Str.slice_from 6 w1 = Str.slice_from 6 w2 → w1 = w2.
Proof.
  intros H1 H2 Heq. apply startswith_append in H1, H2. simpl in H1, H2.
  rewrite H1, H2, Heq. reflexivity.
Qed.

(** X8: unique words give an index that inverts the vocabulary.  If no word
    occurs twice in the file then no English word occurs twice, and the
    index maps the [k]-th English word to [k]. *)
Theorem english_index_inverse (all_words : list string) :
  NoDup all_words →
  NoDup (Vocabulary.english_words all_words)
  ∧ ∀ k w,
      Vocabulary.english_words all_words !! k = Some w ↔
      index (Vocabulary.english_words all_words) !! w = Some k.
Proof.
  intros Hnodup.
  assert (Hen : NoDup (Vocabulary.english_words all_words)).
  { unfold Vocabulary.english_words. apply NoDup_fmap_2_strong.
    - intros w1 w2 Hw1 Hw2 Heq.
      apply list_elem_of_filter in Hw1 as [Hw1 _].
      apply list_elem_of_filter in Hw2 as [Hw2 _].
      eapply slice_from_en_inj; eassumption.
    - apply NoDup_filter. exact Hnodup. }
  split; [exact Hen|]. intros k w. rewrite index_Some. split.
  - intros Hk. split; [exact Hk|]. intros j Hj.
    rewrite (NoDup_lookup _ _ _ _ Hen Hj Hk). lia.
  - intros [Hk _]. exact Hk.
Qed.

Lemma english_index_inverse_witness :
  NoDup Sample.all_words ∧
  index (Vocabulary.english_words Sample.all_words) !! "car"%string = Some 2.
Proof.
  assert (Hnodup : NoDup Sample.all_words).
  { apply (bool_decide_unpack _). vm_compute. exact I. }
  split; [exact Hnodup|].
  apply (proj2 (english_index_inverse Sample.all_words Hnodup) 2).
  vm_compute. reflexivity.
Defined.

(** ** Training set, test set and batches *)

Lemma slice_batch {T : Type} (l : list T) (size b : nat) :
  Batches.slice l (b * size) ((b + 1) * size) = take size (drop (b * size) l).
Proof. unfold Batches.slice. f_equal. lia. Qed.

(** The first [n] slices of [size] elements make up the first [n * size]
    elements. *)
Lemma slices_concat {T : Type} (l : list T) (size n : nat) :
  concat ((λ b, Batches.slice l (b * size) ((b + 1) * size)) <$> seq 0 n)
  = take (n * size) l.
Proof.
  induction n as [|n IH]; [reflexivity|].
  rewrite seq_S, fmap_app, concat_app, IH. simpl.
  rewrite app_nil_r, slice_batch, take_take_drop. f_equal. lia.
Qed.

Lemma slices_length {T : Type} (l : list T) (size n : nat) :
  n * size ≤ length l →
  Forall (λ s, length s = size)
    ((λ b, Batches.slice l (b * size) ((b + 1) * size)) <$> seq 0 n).
Proof.
  intros Hlen. apply Forall_fmap, Forall_forall. intros b Hb.
  apply elem_of_seq in Hb. simpl.
  rewrite slice_batch, length_take, length_drop. nia.
Qed.

Lemma train_batches_le {T : Type} (dataset : list T) :
  Batches.train_batches dataset * Batches.batch_size ≤ length dataset
  ∧ 4 * Batches.train_batches dataset ≤ 3 * Batches.total_batches dataset
  ∧ 3 * Batches.total_batches dataset < 4 * Batches.train_batches dataset + 4
  ∧ Batches.total_batches dataset * Batches.batch_size ≤ length dataset
  ∧ length dataset
    < Batches.total_batches dataset * Batches.batch_size + Batches.batch_size.
Proof.
  unfold Batches.train_batches, Batches.total_batches, Batches.batch_size.
  pose proof (Nat.div_mod_eq (length dataset) 100) as H1.
  pose proof (Nat.mod_upper_bound (length dataset) 100) as H2.
  pose proof (Nat.div_mod_eq (3 * (length dataset / 100)) 4) as H3.
  pose proof (Nat.mod_upper_bound (3 * (length dataset / 100)) 4) as H4.
  lia.
Qed.

(** X9: the split.  The training set and the test set are the two parts of
    the dataset, in its order; the training set is a whole number of
    batches, at most three quarters of the examples, and the test set at
    least a quarter. *)
Theorem train_test_split {T : Type} (dataset : list T) :
  Batches.train dataset ++ Batches.test dataset = dataset
  ∧ length (Batches.train dataset)
    = Batches.train_batches dataset * Batches.batch_size
  ∧ 4 * length (Batches.train dataset) ≤ 3 * length dataset
  ∧ length dataset ≤ 4 * length (Batches.test dataset).
Proof.
  pose proof (train_batches_le dataset) as (Hle & Hq & _ & Htot & _).
  assert (Hlen : length (Batches.train dataset)
                 = Batches.train_batches dataset * Batches.batch_size).
  { unfold Batches.train. rewrite length_take. lia. }
  split; [apply take_drop|]. split; [exact Hlen|].
  unfold Batches.test. rewrite length_drop, Hlen.
  unfold Batches.batch_size in *. lia.
Qed.

(** X10: small datasets.  The training set is empty exactly when the dataset
    has fewer than 200 examples; then every example is a test example. *)
Theorem train_empty {T : Type} (dataset : list T) :
  (Batches.train dataset = [] ↔ length dataset < 200)
  ∧ (length dataset < 200 → Batches.test dataset = dataset).
Proof.
  pose proof (train_batches_le dataset) as (Hle & Hq & Hq' & Htot & Htot').
  unfold Batches.batch_size in *.
  assert (Hzero : Batches.train_batches dataset = 0 ↔ length dataset < 200)
    by lia.
  split.
  - rewrite <- Hzero. unfold Batches.train, Batches.batch_size. split.
    + intros Hnil. apply (f_equal length) in Hnil.
      rewrite length_take in Hnil. simpl in Hnil. lia.
    + intros ->. reflexivity.
  - intros Hsmall. apply Hzero in Hsmall.
    unfold Batches.test. rewrite Hsmall. reflexivity.
Qed.

(** X11: an epoch.  However the training set was shuffled, the batches of
    an epoch are [train_batches] slices of exactly [batch_size] examples
    each, and they make up the training set: every training example is
    in one batch, once. *)
Theorem epoch_batches_cover {T : Type} (dataset shuffled : list T) :
  shuffled ≡ₚ Batches.train dataset →
  concat (Batches.epoch_batches shuffled (Batches.train_batches dataset))
  = shuffled
  ∧ length (Batches.epoch_batches shuffled (Batches.train_batches dataset))
    = Batches.train_batches dataset
  ∧ Forall (λ data, length data = Batches.batch_size)
      (Batches.epoch_batches shuffled (Batches.train_batches dataset)).
Proof.
  intros Hperm.
  assert (Hlen : length shuffled
                 = Batches.train_batches dataset * Batches.batch_size).
  { rewrite Hperm. apply train_test_split. }
  unfold Batches.epoch_batches, Batches.batch. split; [|split].
  - rewrite slices_concat. apply take_ge. lia.
  - rewrite length_fmap. apply length_seq.
  - apply slices_length. lia.
Qed.

Lemma epoch_batches_cover_witness :
  concat (Batches.epoch_batches (Batches.train (seq 0 450))
            (Batches.train_batches (seq 0 450)))
  = Batches.train (seq 0 450)
  ∧ length (Batches.epoch_batches (Batches.train (seq 0 450))
              (Batches.train_batches (seq 0 450))) = 3.
Proof.
  destruct (epoch_batches_cover (seq 0 450) (Batches.train (seq 0 450)))
    as (Hcover & Hcount & _); [reflexivity|].
  split; [exact Hcover|]. rewrite Hcount. vm_compute. reflexivity.
Defined.

(** X12: the batches of the logistic regression.  The 550 slices of 100 make
    up the first 55000 rows, whatever the number of rows is (a slice past
    the end is short or empty, it does not raise); with 55000 rows or more
    each has 100 rows; and the slices of the images and of the labels pair
    every image with its own label. *)
Theorem mnist_batches_cover {T U : Type} (images : list T) (labels : list U) :
  concat (Batches.mnist_batches images) = take (550 * 100) images
  ∧ (550 * 100 ≤ length images →
     Forall (λ batch_xs, length batch_xs = 100)
            (Batches.mnist_batches images))
  ∧ ∀ which_batch,
      zip (Batches.mnist_batch images which_batch)
          (Batches.mnist_batch labels which_batch)
      = Batches.mnist_batch (zip images labels) which_batch.
Proof.
  unfold Batches.mnist_batches, Batches.mnist_batch. split; [|split].
  - apply slices_concat.
  - apply slices_length.
  - intros b. rewrite !slice_batch.
    rewrite zip_with_drop, zip_with_take. reflexivity.
Qed.

(** ** More on scores and ranking *)

Lemma F32_mul_comm (x y : F32.t) : num_mul x y = num_mul y x.
Proof.
  destruct x as [sx|sx| |sx mx ex], y as [sy|sy| |sy my ey]; simpl;
    rewrite ?(xorb_comm sx sy), ?(Pos.mul_comm mx my), ?(Z.add_comm ex ey);
    reflexivity.
Qed.

Lemma dot_comm {A : Type} `{Numeric A} (u v : list A) :
  (∀ x y : A, num_mul x y = num_mul y x) → dot u v = dot v u.
Proof.
  intros Hcomm. unfold dot. f_equal.
  revert v. induction u as [|x u IH]; intros [|y v]; simpl; try reflexivity.
  rewrite Hcomm, IH. reflexivity.
Qed.

Lemma similarity_score_comm {A : Type} `{Numeric A} (D : nat)
    (english_words : list string) (english_embeddings : list (list A))
    (w1 w2 : string) :
  (∀ x y : A, num_mul x y = num_mul y x) →
  well_formed D english_words english_embeddings →
  similarity_score english_words english_embeddings w1 w2
  = similarity_score english_words english_embeddings w2 w1.
Proof.
  intros Hcomm Hwf. unfold similarity_score.
  destruct (embedding_cases D english_words english_embeddings w1 Hwf)
    as [-> | [v1 ->]];
  destruct (embedding_cases D english_words english_embeddings w2 Hwf)
    as [-> | [v2 ->]]; simpl; try reflexivity.
  unfold np_dot_vec. rewrite (dot_comm v1 v2 Hcomm).
  destruct (decide (length v1 = length v2)), (decide (length v2 = length v1));
    congruence.
Qed.

(** X13: the score is symmetric.  In binary32, as the notebook computes it,
    [similarity_score w1 w2] and [similarity_score w2 w1] are the same
    float, or the same [KeyError]. *)
Theorem similarity_score_symmetric (D : nat) (english_words : list string)
    (english_embeddings : list (list F32.t)) (w1 w2 : string) :
  well_formed D english_words english_embeddings →
  similarity_score english_words english_embeddings w1 w2
  = similarity_score english_words english_embeddings w2 w1.
Proof.
  intros Hwf. apply (similarity_score_comm D); [|exact Hwf].
  exact F32_mul_comm.
Qed.

Lemma similarity_score_symmetric_witness :
  similarity_score Example.words Example.embeddings "cat" "dog"
  = similarity_score Example.words Example.embeddings "dog" "cat".
Proof.
  apply (similarity_score_symmetric 2). exact example_well_formed.
Defined.

(** The quadratic form of two vectors is never negative. *)
Lemma dotR_quadratic (u : list R) : ∀ (v : list R) (s t : R),
  (0 <= s * s * dot u u - 2 * (s * t * dot u v) + t * t * dot v v)%R.
Proof.
  induction u as [|x u IH]; intros [|y v] s t.
  - unfold dot. simpl. lra.
  - pose proof (dotR_self_nonneg (y :: v)).
    replace (dot [] (y :: v)) with 0%R by reflexivity.
    replace (dot (A:=R) [] []) with 0%R by reflexivity. nra.
  - pose proof (dotR_self_nonneg (x :: u)).
    replace (dot (x :: u) []) with 0%R by reflexivity.
    replace (dot (A:=R) [] []) with 0%R by reflexivity. nra.
  - rewrite !dotR_cons. specialize (IH v s t).
    pose proof (Rle_0_sqr (s * x - t * y)) as Hsq. unfold Rsqr in Hsq. nra.
Qed.

(** X14: the range of the score, in exact arithmetic.  The score of two words
    whose embeddings have norms other than zero lies between -1 and 1. *)
Theorem similarity_score_range (english_words : list string)
    (english_embeddings : list (list R)) (w1 w2 : string) (i1 i2 : nat)
    (row1 row2 : list R) :
  index english_words !! w1 = Some i1 →
  index english_words !! w2 = Some i2 →
  english_embeddings !! i1 = Some row1 →
  english_embeddings !! i2 = Some row2 →
  length row1 = length row2 →
  norm row1 ≠ 0%R → norm row2 ≠ 0%R →
  ∃ s, similarity_score english_words english_embeddings w1 w2 = Ok s
       ∧ (-1 <= s <= 1)%R.
Proof.
  intros Hi1 Hi2 Hrow1 Hrow2 Hlen Hn1 Hn2.
  unfold similarity_score, embedding, dict_get, list_get.
  rewrite Hi1, Hi2. simpl.
  rewrite (normalized_embeddings_lookup english_embeddings i1 row1 Hrow1).
  rewrite (normalized_embeddings_lookup english_embeddings i2 row2 Hrow2).
  simpl. unfold np_dot_vec.
  rewrite decide_True by (rewrite !length_fmap; exact Hlen).
  eexists. split; [reflexivity|].
  pose proof (dotR_normalized row1 Hn1) as H1.
  pose proof (dotR_normalized row2 Hn2) as H2.
  pose proof (dotR_quadratic ((λ x, (x / norm row1)%R) <$> row1)
                ((λ x, (x / norm row2)%R) <$> row2) 1 1) as Hplus.
  pose proof (dotR_quadratic ((λ x, (x / norm row1)%R) <$> row1)
                ((λ x, (x / norm row2)%R) <$> row2) 1 (-1)) as Hminus.
  rewrite H1, H2 in Hplus, Hminus.
  change (-1 <= dot ((λ x, (x / norm row1)%R) <$> row1)
                    ((λ x, (x / norm row2)%R) <$> row2) <= 1)%R.
  lra.
Qed.

Lemma similarity_score_range_witness :
  ∃ s, similarity_score Example.words Example.embeddingsR "cat" "dog" = Ok s
       ∧ (-1 <= s <= 1)%R.
Proof.
  apply (similarity_score_range Example.words Example.embeddingsR
           "cat" "dog" 0 1 [1%R; 0%R] [4%R; 3%R]).
  - vm_compute. reflexivity.
  - vm_compute. reflexivity.
  - reflexivity.
  - reflexivity.
  - reflexivity.
  - unfold norm, dot. simpl. apply Rgt_not_eq, sqrt_lt_R0. lra.
  - unfold norm, dot. simpl. apply Rgt_not_eq, sqrt_lt_R0. lra.
Defined.

Lemma closest_to_vector_shape {A : Type} `{Numeric A}
    (argsort : list A → list nat) (D : nat) (english_words : list string)
    (english_embeddings : list (list A)) (v : list A) (n : Z)
    (ws : list string) :
  closest_to_vector argsort D english_words english_embeddings v n = Ok ws →
  length v = D.
Proof.
  unfold closest_to_vector, np_dot_mat. intros Hws.
  destruct (decide (length v = D)); [assumption | discriminate Hws].
Qed.

(** X15: asking for fewer words.  When [closest_to_vector v m] returns, so
    does [closest_to_vector v n] for every [n] up to [m], and it returns
    the first [n] of the same words: the ranking does not depend on how
    many words are asked for. *)
Theorem closest_to_vector_prefix {A : Type} `{Numeric A}
    (argsort : list A → list nat) (D : nat) (english_words : list string)
    (english_embeddings : list (list A)) (v : list A) (n m : Z)
    (ws : list string) :
  (n ≤ m)%Z →
  closest_to_vector argsort D english_words english_embeddings v m = Ok ws →
  closest_to_vector argsort D english_words english_embeddings v n
  = Ok (take (Z.to_nat n) ws).
Proof.
  intros Hnm Hws.
  pose proof (closest_to_vector_shape _ _ _ _ _ _ _ Hws) as Hv.
  apply closest_to_vector_Ok in Hws as [Hlen Hwords]; [|exact Hv].
  apply closest_to_vector_Ok; [exact Hv|]. split; [lia|].
  unfold words_of, best_rows in *.
  replace (take (Z.to_nat n)
             (reverse (argsort (all_scores english_embeddings v))))
    with (take (Z.to_nat n)
            (take (Z.to_nat m)
               (reverse (argsort (all_scores english_embeddings v))))).
  - apply Forall2_take. exact Hwords.
  - rewrite take_take. f_equal. lia.
Qed.

Lemma closest_to_vector_prefix_witness :
  closest_to_vector insertion_argsort 2 Example.words Example.embeddings
    Example.query 1 = Ok ["cat"%string].
Proof.
  apply (closest_to_vector_prefix insertion_argsort 2 Example.words
           Example.embeddings Example.query 1 3
           ["cat"; "dog"; "car"]%string).
  - lia.
  - vm_compute. reflexivity.
Defined.

(** What a query of the right shape gets: [n] words of the vocabulary when
    the vocabulary has [n] words, [StopIteration] when it has fewer. *)
Lemma closest_to_vector_enough {A : Type} `{Numeric A}
    (argsort : list A → list nat) (D : nat) (english_words : list string)
    (english_embeddings : list (list A)) (v : list A) (n : Z) :
  (∀ xs, argsort_spec xs (argsort xs)) →
  length english_words = length english_embeddings →
  length v = D →
  (Z.to_nat n ≤ length english_words →
   ∃ ws,
     closest_to_vector argsort D english_words english_embeddings v n = Ok ws
     ∧ length ws = Z.to_nat n
     ∧ Forall (λ w, w ∈ english_words) ws)
  ∧ (length english_words < Z.to_nat n →
     closest_to_vector argsort D english_words english_embeddings v n
     = Raise StopIteration).
Proof.
  intros Hsort Hlen Hv.
  destruct (argsort_positions argsort english_words english_embeddings v
              (Hsort _) Hlen) as (Hplen & Hvalid & _).
  split.
  - intros Hn.
    assert (Hrows : Forall (λ i, i < length english_words)
                      (best_rows argsort english_embeddings v n)).
    { unfold best_rows. apply Forall_take, Forall_reverse, Hvalid. }
    destruct (words_of_exists english_words _ Hrows) as [ws Hws].
    exists ws. split; [|split].
    + apply closest_to_vector_Ok; [exact Hv|]. split; [lia | exact Hws].
    + rewrite <- (Forall2_length _ _ _ Hws). unfold best_rows.
      rewrite length_take, length_reverse. lia.
    + unfold words_of in Hws. clear Hrows.
      induction Hws as [|p w ps ws' Hp _ IH]; constructor; [|exact IH].
      eapply list_elem_of_lookup_2. exact Hp.
  - intros Hn. unfold closest_to_vector.
    rewrite np_dot_mat_shape by exact Hv. simpl.
    apply take_next_StopIteration.
    + rewrite length_reverse. fold (all_scores english_embeddings v). lia.
    + apply Forall_reverse. exact Hvalid.
Qed.

(** X16: the ten of [solve_analogy].  For three words of the vocabulary,
    [solve_analogy] returns exactly ten words of the vocabulary when the
    vocabulary has ten words or more, and raises [StopIteration] when it
    has fewer. *)
Theorem solve_analogy_ten {A : Type} `{Numeric A}
    (argsort : list A → list nat) (D : nat) (english_words : list string)
    (english_embeddings : list (list A)) (a1 b1 a2 : string) :
  (∀ xs, argsort_spec xs (argsort xs)) →
  well_formed D english_words english_embeddings →
  a1 ∈ english_words → b1 ∈ english_words → a2 ∈ english_words →
  (10 ≤ length english_words →
   ∃ ws,
     solve_analogy argsort D english_words english_embeddings a1 b1 a2
     = Ok ws
     ∧ length ws = 10
     ∧ Forall (λ w, w ∈ english_words) ws)
  ∧ (length english_words < 10 →
     solve_analogy argsort D english_words english_embeddings a1 b1 a2
     = Raise StopIteration).
Proof.
  intros Hsort Hwf Ha Hb Hc.
  destruct (embedding_known D english_words english_embeddings a1 Hwf Ha)
    as (va & Hva & HaD).
  destruct (embedding_known D english_words english_embeddings b1 Hwf Hb)
    as (vb & Hvb & HbD).
  destruct (embedding_known D english_words english_embeddings a2 Hwf Hc)
    as (vc & Hvc & HcD).
  assert (Hsolve :
    solve_analogy argsort D english_words english_embeddings a1 b1 a2
    = closest_to_vector argsort D english_words english_embeddings
        (vadd (vsub vb va) vc) 10).
  { unfold solve_analogy. rewrite Hvb. simpl. rewrite Hva. simpl.
    rewrite Hvc. reflexivity. }
  assert (Hv : length (vadd (vsub vb va) vc) = D).
  { unfold vadd, vsub. rewrite !length_zip_with. lia. }
  rewrite Hsolve.
  destruct (closest_to_vector_enough argsort D english_words
              english_embeddings (vadd (vsub vb va) vc) 10 Hsort
              (proj1 Hwf) Hv) as [Hok Hstop].
  split; [intros Hlen; apply Hok | intros Hlen; apply Hstop]; simpl; lia.
Qed.

Lemma analogy_well_formed :
  well_formed 2 Example.analogy_words Example.analogy_embeddings.
Proof. split; [reflexivity | repeat constructor]. Qed.

Lemma solve_analogy_ten_witness :
  (∃ ws,
     solve_analogy insertion_argsort 2 Example.analogy_words
       Example.analogy_embeddings "man" "king" "woman" = Ok ws
     ∧ length ws = 10)
  ∧ solve_analogy insertion_argsort 2 Example.words Example.embeddings
      "cat" "dog" "car" = Raise StopIteration.
Proof.
  split.
  - destruct (proj1 (solve_analogy_ten insertion_argsort 2
                       Example.analogy_words Example.analogy_embeddings
                       "man" "king" "woman" insertion_argsort_float32
                       analogy_well_formed
                       ltac:(apply (bool_decide_unpack _); vm_compute; exact I)
                       ltac:(apply (bool_decide_unpack _); vm_compute; exact I)
                       ltac:(apply (bool_decide_unpack _); vm_compute; exact I)))
      as (ws & Hws & Hlen & _); [simpl; lia|].
    exists ws. split; assumption.
  - apply (solve_analogy_ten insertion_argsort 2 Example.words
             Example.embeddings "cat" "dog" "car" insertion_argsort_float32
             example_well_formed);
      [apply (bool_decide_unpack _); vm_compute; exact I ..| simpl; lia].
Defined.

(** ** Normalization in exact arithmetic *)

Lemma dotR_scale_l (u : list R) : ∀ (v : list R) (s : R),
  dot (vscale s u) v = (s * dot u v)%R.
Proof.
  induction u as [|x u IH]; intros [|y v] s;
    try (unfold dot; simpl; lra).
  change (vscale s (x :: u)) with ((s * x)%R :: vscale s u).
  rewrite !dotR_cons, IH. lra.
Qed.

Lemma normR_scale (row : list R) (s : R) :
  (0 <= s)%R → norm (vscale s row) = (s * norm row)%R.
Proof.
  intros Hs. unfold norm. simpl.
  rewrite dotR_scale_l, dotR_scale, <- Rmult_assoc.
  rewrite sqrt_mult; [|nra | apply dotR_self_nonneg].
  rewrite sqrt_square by exact Hs. reflexivity.
Qed.

Lemma normR_normalized (row : list R) :
  norm row ≠ 0%R → norm ((λ x, (x / norm row)%R) <$> row) = 1%R.
Proof.
  intros Hnorm. unfold norm at 1.
  rewrite (dotR_normalized row Hnorm). apply sqrt_1.
Qed.

(** X17: normalizing twice.  In exact arithmetic, when no row has the norm
    zero, the normalized rows have the norm 1 and normalizing them again
    changes nothing. *)
Theorem normalize_idempotent (english_embeddings : list (list R)) :
  Forall (λ row, norm row ≠ 0%R) english_embeddings →
  Forall (λ row, norm row = 1%R) (normalized_embeddings english_embeddings)
  ∧ normalized_embeddings (normalized_embeddings english_embeddings)
    = normalized_embeddings english_embeddings.
Proof.
  intros Hnorms.
  assert (Hone : Forall (λ row, norm row = 1%R)
                   (normalized_embeddings english_embeddings)).
  { apply Forall_lookup. intros i n Hn.
    assert (Hlt : i < length english_embeddings).
    { rewrite <- length_normalized_embeddings. eapply lookup_lt_Some, Hn. }
    apply lookup_lt_is_Some_2 in Hlt as [row Hrow].
    rewrite (normalized_embeddings_lookup _ _ _ Hrow) in Hn.
    injection Hn as <-. apply normR_normalized.
    rewrite Forall_forall in Hnorms. apply Hnorms.
    eapply list_elem_of_lookup_2. exact Hrow. }
  split; [exact Hone|]. apply list_eq. intros i.
  destruct (normalized_embeddings english_embeddings !! i) as [n|] eqn:Hn.
  - rewrite (normalized_embeddings_lookup _ _ _ Hn). f_equal.
    rewrite (Forall_lookup_1 _ _ _ _ Hone Hn).
    rewrite <- (list_fmap_id n) at 2. apply list_fmap_ext.
    intros j x _. simpl. lra.
  - apply lookup_ge_None. apply lookup_ge_None in Hn.
    rewrite length_normalized_embeddings. exact Hn.
Qed.

Lemma normalize_idempotent_witness :
  normalized_embeddings (normalized_embeddings Example.embeddingsR)
  = normalized_embeddings Example.embeddingsR.
Proof.
  apply normalize_idempotent. unfold Example.embeddingsR.
  repeat constructor; unfold norm, dot; simpl;
    apply Rgt_not_eq, sqrt_lt_R0; lra.
Defined.

(** X18: the magnitude is discarded.  In exact arithmetic, scaling every
    embedding by a positive number does not change the normalized
    embeddings, when no row has the norm zero. *)
Theorem normalize_scale_invariant (english_embeddings : list (list R))
    (s : R) :
  (0 < s)%R →
  Forall (λ row, norm row ≠ 0%R) english_embeddings →
  normalized_embeddings (vscale s <$> english_embeddings)
  = normalized_embeddings english_embeddings.
Proof.
  intros Hs Hnorms. apply list_eq. intros i.
  destruct (english_embeddings !! i) as [row|] eqn:Hrow.
  - rewrite (normalized_embeddings_lookup _ _ _ Hrow).
    rewrite (normalized_embeddings_lookup (vscale s <$> english_embeddings)
               i (vscale s row))
      by (rewrite list_lookup_fmap, Hrow; reflexivity).
    f_equal. rewrite normR_scale by lra.
    unfold vscale. rewrite <- list_fmap_compose. apply list_fmap_ext.
    intros j x _. simpl. field. split; [|lra].
    rewrite Forall_forall in Hnorms. apply Hnorms.
    eapply list_elem_of_lookup_2. exact Hrow.
  - transitivity (@None (list R)); [|symmetry];
      apply lookup_ge_None; rewrite length_normalized_embeddings;
      rewrite ?length_fmap; apply lookup_ge_None; exact Hrow.
Qed.

Lemma normalize_scale_invariant_witness :
  normalized_embeddings (vscale 2%R <$> Example.embeddingsR)
  = normalized_embeddings Example.embeddingsR.
Proof.
  apply normalize_scale_invariant; [lra|]. unfold Example.embeddingsR.
  repeat constructor; unfold norm, dot; simpl;
    apply Rgt_not_eq, sqrt_lt_R0; lra.
Defined.

(** ** A review is a bag of words *)

Lemma vaddR_swap (z : list R) : ∀ x y : list R,
  vadd (vadd z y) x = vadd (vadd z x) y.
Proof.
  unfold vadd.
  induction z as [|c z IH]; intros [|a x] [|b y]; simpl; try reflexivity.
  rewrite IH. f_equal. lra.
Qed.

Lemma fold_vaddR_Permutation (l l' : list (list R)) :
  l ≡ₚ l' → ∀ z, fold_left vadd l z = fold_left vadd l' z.
Proof.
  induction 1 as [|x l l' _ IH|x y l|l l' l'' _ IH1 _ IH2]; intros z; simpl.
  - reflexivity.
  - apply IH.
  - rewrite vaddR_swap. reflexivity.
  - rewrite IH1. apply IH2.
Qed.

Lemma vaddR_zero (a : list R) :
  vadd (replicate (length a) 0%R) a = a.
Proof.
  unfold vadd. induction a as [|x a IH]; [reflexivity|].
  cbn [length replicate zip_with]. rewrite IH. f_equal. simpl. lra.
Qed.

(** The sum of the rows of a stack does not depend on their order. *)
Lemma stack_sum_Permutation (D : nat) (a a' : list R)
    (rest rest' : list (list R)) :
  a :: rest ≡ₚ a' :: rest' →
  length a = D → length a' = D →
  fold_left vadd rest a = fold_left vadd rest' a'.
Proof.
  intros Hperm Ha Ha'.
  rewrite <- (vaddR_zero a), <- (vaddR_zero a'), Ha, Ha'.
  exact (fold_vaddR_Permutation _ _ Hperm (replicate D 0%R)).
Qed.

(** In a well-formed store the rows of known words are all found. *)
Lemma known_rows {A : Type} `{Numeric A} (D : nat)
    (english_words : list string) (english_embeddings : list (list A)) :
  well_formed D english_words english_embeddings →
  ∃ row_of : string → list A,
    (∀ ws, Forall (λ w, w ∈ english_words) ws →
       mapM (embedding english_words english_embeddings) ws
       = Ok (row_of <$> ws))
    ∧ ∀ w, length (row_of w) = D.
Proof.
  intros Hwf.
  exists (λ w,
    match embedding english_words english_embeddings w with
    | Ok v => if decide (length v = D) then v else replicate D num_zero
    | Raise _ => replicate D num_zero
    end).
  split.
  - induction 1 as [|w ws Hw Hws IH]; [reflexivity|].
    destruct (embedding_known D english_words english_embeddings w Hwf Hw)
      as (v & Hv & HvD).
    simpl. rewrite Hv, IH. simpl. rewrite decide_True by exact HvD.
    reflexivity.
  - intros w. destruct (embedding english_words english_embeddings w) as [v|];
      [destruct (decide (length v = D)); [assumption|] |];
      apply length_replicate.
Qed.

(** X19: a review is a bag of words, in exact arithmetic.  Two lines with the
    same first character whose words of the vocabulary are the same up to
    their order are converted to the same example: the mean does not see
    the order of the words. *)
Theorem convert_line_bag_of_words (D : nat) (english_words : list string)
    (english_embeddings : list (list R)) (line1 line2 : string) :
  well_formed D english_words english_embeddings →
  Str.getitem line1 0 = Str.getitem line2 0 →
  filter (λ w, w ∈ english_words) (Reviews.line_words line1)
  ≡ₚ filter (λ w, w ∈ english_words) (Reviews.line_words line2) →
  Reviews.convert_line_to_example english_words english_embeddings line1
  = Reviews.convert_line_to_example english_words english_embeddings line2.
Proof.
  intros Hwf Hfirst Hperm. unfold Reviews.convert_line_to_example.
  rewrite !known_embeddings_filter, Hfirst.
  destruct (known_rows D english_words english_embeddings Hwf)
    as (row_of & Hrows & HD).
  rewrite !Hrows
    by (apply Forall_forall; intros w Hw;
        apply list_elem_of_filter in Hw as [Hw _]; exact Hw).
  apply (fmap_Permutation row_of) in Hperm.
  destruct (Str.getitem line2 0) as [c|e]; [|reflexivity]. simpl.
  destruct (Str.int c) as [label|e]; [|reflexivity]. simpl.
  assert (Hcols : ∀ ws : list string,
            Forall (λ b, length b = D) (row_of <$> ws)).
  { intros ws. apply Forall_fmap, Forall_forall. intros w _. apply HD. }
  pose proof (Hcols (filter (λ w, w ∈ english_words)
                       (Reviews.line_words line1))) as Hcols1.
  pose proof (Hcols (filter (λ w, w ∈ english_words)
                       (Reviews.line_words line2))) as Hcols2.
  destruct (row_of <$> filter (λ w, w ∈ english_words)
                         (Reviews.line_words line1)) as [|a rest];
    destruct (row_of <$> filter (λ w, w ∈ english_words)
                           (Reviews.line_words line2)) as [|a' rest'].
  - reflexivity.
  - apply Permutation_nil_cons in Hperm. destruct Hperm.
  - symmetry in Hperm. apply Permutation_nil_cons in Hperm. destruct Hperm.
  - apply Forall_cons in Hcols1 as [Ha Hrest].
    apply Forall_cons in Hcols2 as [Ha' Hrest'].
    unfold Reviews.np_vstack.
    rewrite !decide_True
      by (eapply Forall_impl; [eassumption | simpl; congruence]).
    simpl. unfold Reviews.np_mean_axis0. simpl.
    rewrite (stack_sum_Permutation D a a' rest rest' Hperm Ha Ha').
    apply Permutation_length in Hperm. simpl in Hperm.
    injection Hperm as ->. reflexivity.
Qed.

Lemma sample_well_formed_exact :
  well_formed 2 Sample.words Sample.embeddingsR.
Proof. split; [reflexivity | repeat constructor]. Qed.

Lemma convert_line_bag_of_words_witness :
  Reviews.line_words Sample.great_movie = ["great"; "movie"]%string ∧
  Reviews.line_words Sample.movie_great = ["movie"; "great"]%string ∧
  Reviews.convert_line_to_example Sample.words Sample.embeddingsR
    Sample.great_movie
  = Reviews.convert_line_to_example Sample.words Sample.embeddingsR
      Sample.movie_great.
Proof.
  split; [vm_compute; reflexivity|]. split; [vm_compute; reflexivity|].
  apply (convert_line_bag_of_words 2); [exact sample_well_formed_exact | |].
  - reflexivity.
  - replace (filter (λ w, w ∈ Sample.words)
               (Reviews.line_words Sample.great_movie))
      with ["great"; "movie"]%string by (vm_compute; reflexivity).
    replace (filter (λ w, w ∈ Sample.words)
               (Reviews.line_words Sample.movie_great))
      with ["movie"; "great"]%string by (vm_compute; reflexivity).
    apply Permutation_swap.
Defined.

(** X20: what the words are made of, for a line of Latin-1 characters
    (code points below 256).  Read one after the other, the words of a
    review are the characters of the line from the third on, without the
    punctuation and the whitespace, each lowered: punctuation is taken
    out, not turned into a gap, so that words around it run together. *)
Theorem line_words_characters (line : string) :
  concat (Str.chars <$> Reviews.line_words line)
  = Str.lower_char
    <$> filter (λ c, Str.is_space c = false)
          (filter (λ c, Str.is_punct c = false) (drop 2 (Str.chars line))).
Proof.
  unfold Reviews.line_words, Str.split.
  rewrite split_go_concat, chars_lower_remove_punct. simpl.
  unfold Str.slice_from. rewrite chars_of_chars.
  induction (filter (λ c, Str.is_punct c = false) (drop 2 (Str.chars line)))
    as [|c l IH]; [reflexivity|].
  rewrite fmap_cons, !filter_cons.
  assert (Hsp : Str.is_space (Str.lower_char c) = Str.is_space c).
  { destruct c as [[] [] [] [] [] [] [] []]; vm_compute; reflexivity. }
  rewrite Hsp. destruct (decide (Str.is_space c = false));
    rewrite IH; reflexivity.
Qed.

(** A comma between two words joins them. *)
Example line_words_joined :
  Reviews.line_words "1 great,movie" = ["greatmovie"%string].
Proof. vm_compute. reflexivity. Qed.
